(** * Task Management API (server.js): a shallow embedding

    The server keeps one array [tasks] in process memory and serves three
    routes over it:

      GET   /api/tasks              list, optionally filtered by status
      POST  /api/tasks              create (behind [validateTaskInput])
      PATCH /api/tasks/:id/assign   assign a task to a developer

    Every handler runs to completion before the next request is taken, so a
    handler is a function from the request and the array to a response and the
    array afterwards.

    Conventions of the embedding.
    - A JavaScript string is a [string]; each [ascii] stands for one UTF-16
      code unit below 256.
    - A field of a parsed JSON body or of the query string is [option string]:
      [None] is [undefined] (the field is absent), [Some s] is the string [s].
    - [null] and [undefined] in a task record are both [None].
    - [Date.now()] and [new Date()] read the clock; the readings a request
      takes are an input of its handler, in milliseconds since the epoch.  A
      timestamp field holds the reading whose [toISOString()] the source
      stores.
    - Calls to [logger] write to the log only and are left out. *)

From Stdlib Require Import Ascii.
From stdpp Require Import base numbers list strings pretty.

(** ** The JavaScript operations the server uses *)
Module JS.

(** Truthiness of a value that is a string or [undefined]. *)
Definition truthy (v : option string) : bool :=
  match v with
  | Some s => bool_decide (s ≠ EmptyString)
  | None => false
  end.

(** [s.startsWith(p)] *)
Definition startsWith (s p : string) : bool := String.prefix p s.

(** The code units below 256 that the regular expression class [\s] matches:
    tab, line feed, vertical tab, form feed, carriage return, space and the
    no-break space. *)
Definition is_whitespace (c : ascii) : bool :=
  match c with
  | "009" | "010" | "011" | "012" | "013" | " " | "160" => true
  | _ => false
  end%char.

(** A template literal renders an integer in decimal. *)
Definition Number_toString (n : N) : string := pretty n.

End JS.

(** ** express-validator, as far as [validateTaskInput] uses it

    The package is a dependency of the server.  Its chains are modelled on
    fields that are strings or absent: a chain without [optional()] validates
    an absent field as the empty string, sanitizers and validators run in the
    order they are written, a sanitized value is written back to [req.body],
    and every failed validator adds one error to the result. *)
Module Validator.

(** One entry of [validationResult(req).array()]: the field and the message
    given to [withMessage]. *)
Record ValidationError := { param : string; msg : string }.

Global Instance ValidationError_eq_dec : EqDecision ValidationError.
Proof. solve_decision. Defined.

(** A field value is turned into a string before a standard validator or
    sanitizer sees it; an absent field becomes the empty string. *)
Definition toString (v : option string) : string := default EmptyString v.

(** validator.js [ltrim], [rtrim] and [trim] without a character set. *)
Fixpoint ltrim (s : string) : string :=
  match s with
  | String c s' => if JS.is_whitespace c then ltrim s' else s
  | EmptyString => EmptyString
  end.

Fixpoint rtrim (s : string) : string :=
  match s with
  | EmptyString => EmptyString
  | String c s' =>
      match rtrim s' with
      | EmptyString => if JS.is_whitespace c then EmptyString else String c EmptyString
      | r => String c r
      end
  end.

Definition trim (s : string) : string := rtrim (ltrim s).

(** validator.js [isLength(str, { min })]: below code unit 256 there are no
    surrogate pairs and no variation selectors, so the length counted is the
    number of code units. *)
Definition isLength (min : nat) (s : string) : bool :=
  bool_decide (min ≤ String.length s).

(** validator.js [isIn(str, values)] *)
Definition isIn (values : list string) (s : string) : bool :=
  bool_decide (s ∈ values).

End Validator.

(** ** Data *)

Module Task.
Record t := mk {
  id : string;
  title : string;
  status : string;
  assignee : option string;
  createdAt : option N;
  updatedAt : option N
}.

Global Instance eq_dec : EqDecision t.
Proof. solve_decision. Defined.

(** [task.assignee = a; task.updatedAt = now] *)
Definition set_assignee (a : option string) (now : N) (task : t) : t :=
  {| id := id task; title := title task; status := status task;
     assignee := a; createdAt := createdAt task; updatedAt := Some now |}.
End Task.

Module Body.
(** [req.body] after [express.json()], with the fields the handlers read.
    The bodies modelled are those whose [title], [status] and [assignee] are
    each a JSON string or absent.  A field that holds an array, a number, a
    boolean, [null] or an object is outside the model: express-validator
    checks an array element by element, so the server answers 201 to a
    status such as [["todo"]] and stores the array.  Every statement below
    about a request is a statement about a request with string or absent
    fields. *)
Record t := mk {
  title : option string;
  status : option string;
  assignee : option string
}.
End Body.

(** The clock readings one request takes. *)
Record Clock := { Date_now : N; new_Date : N }.

Inductive request :=
| GET_tasks (query_status : option string)
| POST_tasks (body : Body.t)
| PATCH_assign (id : string) (body : Body.t).

Inductive payload :=
| Tasks (result : list Task.t)
| OneTask (task : Task.t)
| Error (error : string)
| Errors (errors : list Validator.ValidationError).

Global Instance payload_eq_dec : EqDecision payload.
Proof. solve_decision. Defined.

(** [res.status(code).json(payload)]; [res.json] alone answers 200. *)
Record response := { code : N; json : payload }.

Global Instance response_eq_dec : EqDecision response.
Proof. solve_decision. Defined.

(** ** The server *)

(** [let tasks = [...]] *)
Definition tasks0 : list Task.t :=
  [ Task.mk "tsk-1" "Refactor auth module" "in-progress" (Some "dev-1") None None;
    Task.mk "tsk-2" "Write API documentation" "todo" None None None ].

(** [findTask]: [tasks.find(t => t.id === id)].  The array holds each task
    object once, so the position of the object found stands for the reference
    the source gets. *)
Definition findTask (id : string) (tasks : list Task.t) : option (nat * Task.t) :=
  list_find (λ t, Task.id t = id) tasks.

(** [validateAssignee]: [assignee && assignee.startsWith('dev-')], read as a
    condition. *)
Definition validateAssignee (assignee : option string) : bool :=
  JS.truthy assignee && JS.startsWith (default EmptyString assignee) "dev-".

Definition statuses : list string := ["todo"; "in-progress"; "done"].

Definition title_error : Validator.ValidationError :=
  {| Validator.param := "title"; Validator.msg := "Title must be at least 5 characters" |}.
Definition status_error : Validator.ValidationError :=
  {| Validator.param := "status"; Validator.msg := "Invalid status" |}.

(** [body('title').trim().isLength({ min: 5 })]: the sanitizer writes the
    trimmed value back to the request. *)
Definition sanitize_title (body : Body.t) : Body.t :=
  Body.mk (Some (Validator.trim (Validator.toString (Body.title body))))
          (Body.status body) (Body.assignee body).

Definition check_title (body : Body.t) : list Validator.ValidationError :=
  if Validator.isLength 5 (Validator.toString (Body.title body)) then [] else [title_error].

(** [body('status').isIn(['todo', 'in-progress', 'done'])]: the chain has no
    [optional()], so an absent field is validated as the empty string.  This
    is the check of a status that is a string or absent; an array status is
    checked element by element by the library and is not modelled. *)
Definition check_status (body : Body.t) : list Validator.ValidationError :=
  if Validator.isIn statuses (Validator.toString (Body.status body)) then [] else [status_error].

(** [validateTaskInput]: the two chains run one after the other, each adding
    its error to the request; the last middleware answers 400 with all of them
    or calls [next()]. *)
Definition validateTaskInput (body : Body.t) : response + Body.t :=
  let body := sanitize_title body in
  let errors := check_title body ++ check_status body in
  if bool_decide (errors = []) then inr body
  else inl {| code := 400; json := Errors errors |}.

(** [app.get('/api/tasks', ...)] *)
Definition get_tasks (status : option string) (tasks : list Task.t)
  : response * list Task.t :=
  let result :=
    if JS.truthy status
    then filter (λ task, Some (Task.status task) = status) tasks
    else tasks in
  ({| code := 200; json := Tasks result |}, tasks).

(** The handler of [app.post('/api/tasks', validateTaskInput, ...)] *)
Definition newTask (body : Body.t) (clock : Clock) : Task.t :=
  {| Task.id := "tsk-" +:+ JS.Number_toString (Date_now clock);
     Task.title := default EmptyString (Body.title body);
     Task.status := default "todo" (Body.status body);
     Task.assignee := None;
     Task.createdAt := Some (new_Date clock);
     Task.updatedAt := None |}.

Definition post_tasks (body : Body.t) (clock : Clock) (tasks : list Task.t)
  : response * list Task.t :=
  match validateTaskInput body with
  | inl res => (res, tasks)
  | inr body =>
      let task := newTask body clock in
      ({| code := 201; json := OneTask task |}, tasks ++ [task])
  end.

(** [app.patch('/api/tasks/:id/assign', ...)] *)
Definition patch_assign (taskId : string) (body : Body.t) (clock : Clock)
    (tasks : list Task.t) : response * list Task.t :=
  let assignee := Body.assignee body in
  if negb (validateAssignee assignee)
  then ({| code := 400; json := Error "Invalid assignee format" |}, tasks)
  else
    match findTask taskId tasks with
    | None => ({| code := 404; json := Error "Task not found" |}, tasks)
    | Some (i, task) =>
        let assign := Task.set_assignee assignee (new_Date clock) in
        ({| code := 200; json := OneTask (assign task) |}, alter assign i tasks)
    end.

Definition handle (req : request) (clock : Clock) (tasks : list Task.t)
  : response * list Task.t :=
  match req with
  | GET_tasks status => get_tasks status tasks
  | POST_tasks body => post_tasks body clock tasks
  | PATCH_assign id body => patch_assign id body clock tasks
  end.

(** The array after a sequence of requests, each with its clock readings. *)
Fixpoint run (reqs : list (request * Clock)) (tasks : list Task.t) : list Task.t :=
  match reqs with
  | [] => tasks
  | (req, clock) :: reqs => run reqs (handle req clock tasks).2
  end.

(** The states of the array the server can be in. *)
Definition reachable (tasks : list Task.t) : Prop :=
  ∃ reqs, tasks = run reqs tasks0.

(** The operations of the specification, over the routes. *)
Definition list_ (filterStatus : option string) := get_tasks filterStatus.
Definition create (title : string) (status : option string) :=
  post_tasks (Body.mk (Some title) status None).
Definition assign (id assignee : string) :=
  patch_assign id (Body.mk None None (Some assignee)).

Definition succeeded (res : response) : Prop := (code res < 400)%N.

(** [updatedAt > createdAt] on two timestamp fields: both are set and the
    first is the later instant. *)
Definition later_than (updatedAt createdAt : option N) : Prop :=
  match updatedAt, createdAt with
  | Some u, Some c => (c < u)%N
  | _, _ => False
  end.

(** ** Predicates of the specification and of the proofs *)

(** The field constraints in the words of the specification: the title is
    required and has at least 5 characters after trimming; the status is
    optional and, when given, one of the three enumerated values. *)
Definition title_violated (body : Body.t) : Prop :=
  String.length (Validator.trim (Validator.toString (Body.title body))) < 5.

Definition status_violated (body : Body.t) : Prop :=
  ∃ s, Body.status body = Some s ∧ s ∉ statuses.

(** What the two chains of [validateTaskInput] reject: [isLength] on the
    trimmed title, [isIn] on the status as a string. *)
Definition title_rejected (body : Body.t) : Prop :=
  ¬ 5 ≤ String.length (Validator.trim (Validator.toString (Body.title body))).

Definition status_rejected (body : Body.t) : Prop :=
  Validator.toString (Body.status body) ∉ statuses.

(** What the specification calls a valid assignee: a non-empty string with
    the prefix [dev-]. *)
Definition valid_assignee (assignee : string) : Prop :=
  assignee ≠ EmptyString ∧ ∃ rest, assignee = "dev-" +:+ rest.

(** The status of a task is one of the three enumerated values. *)
Definition status_ok (task : Task.t) : Prop := Task.status task ∈ statuses.

(** The [Date.now()] readings of the creates that pass validation. *)
Fixpoint id_readings (reqs : list (request * Clock)) : list N :=
  match reqs with
  | [] => []
  | (POST_tasks body, clock) :: reqs =>
      match validateTaskInput body with
      | inr _ => Date_now clock :: id_readings reqs
      | inl _ => id_readings reqs
      end
  | _ :: reqs => id_readings reqs
  end.

(** The id [newTask] makes of a [Date.now()] reading. *)
Definition task_id_of (now : N) : string := "tsk-" +:+ JS.Number_toString now.

(** Two creates that take the same reading of the clock. *)
Definition two_creates_in_one_millisecond : list (request * Clock) :=
  let clock := {| Date_now := 1700000000000; new_Date := 1700000000000 |} in
  [ (POST_tasks (Body.mk (Some "Refactor module") (Some "todo") None), clock);
    (POST_tasks (Body.mk (Some "Write the tests") (Some "todo") None), clock) ].

(** ** Predicates on the array over time *)

(** What holds of every task in an array the server can reach. *)
Record task_wf (task : Task.t) : Prop := {
  wf_id : ∃ rest, Task.id task = "tsk-" +:+ rest;
  wf_title : 5 ≤ String.length (Task.title task);
  wf_status : Task.status task ∈ statuses;
  wf_assignee : ∀ a, Task.assignee task = Some a → valid_assignee a;
  wf_updatedAt : is_Some (Task.updatedAt task) → is_Some (Task.assignee task)
}.

(** What the handlers keep of every task whatever the requests hold: the id
    the server gave it, and the assignee and [updatedAt] that only a
    successful assign writes. *)
Record task_sound (task : Task.t) : Prop := {
  sound_id : ∃ rest, Task.id task = "tsk-" +:+ rest;
  sound_assignee : ∀ a, Task.assignee task = Some a → valid_assignee a;
  sound_updatedAt : is_Some (Task.updatedAt task) → is_Some (Task.assignee task)
}.

(** [new] is [old] after some requests: the fields no handler writes are the
    same, and an assignee or [updatedAt] that was set is still set. *)
Record task_kept (old new : Task.t) : Prop := {
  kept_id : Task.id new = Task.id old;
  kept_title : Task.title new = Task.title old;
  kept_status : Task.status new = Task.status old;
  kept_createdAt : Task.createdAt new = Task.createdAt old;
  kept_assignee : is_Some (Task.assignee old) → is_Some (Task.assignee new);
  kept_updatedAt : is_Some (Task.updatedAt old) → is_Some (Task.updatedAt new)
}.

(** The tasks of a response that carries a list. *)
Definition tasks_of (res : response) : list Task.t :=
  match json res with
  | Tasks result => result
  | _ => []
  end.

(** * The command-line to-do list (todo.js)

    The program keeps its list in the file [tasks.json] and talks to the user
    through a readline interface.

    Conventions of the embedding.
    - The file either does not exist ([None]) or holds the JSON text of an
      array of [{ name, done }] objects, kept as the list that [JSON.parse]
      gives for it; [JSON.stringify] followed by [JSON.parse] gives such a
      list back as it was.
    - The program is run at a terminal that stays open.  The lines the user
      types are a queue of answers, each typed while its question is on the
      screen; a question asked when the queue is empty has not been answered,
      and the program waits ([Pending]).  Input that ends (a closed pipe,
      which closes readline) and lines that arrive while no question is
      pending are outside the model, and so is a [tasks.json] that does not
      hold a JSON array of tasks.
    - The terminal output is the sequence of [console.log] calls and of
      questions asked.  A template literal is kept as the values it prints.
    - An [async] function is a function from the world before it to its
      result and the world after it; [await] is the bind of that monad. *)
Module Todo.

Record Item := { name : string; done : bool }.

Global Instance Item_eq_dec : EqDecision Item.
Proof. solve_decision. Defined.

Inductive output :=
| Log (text : string)
| TaskLine (number : nat) (done : bool) (name : string)
| Removed (name : string)
| Question (query : string).

Global Instance output_eq_dec : EqDecision output.
Proof. solve_decision. Defined.

Record World := {
  file : option (list Item);
  stdin : list string;
  stdout : list output
}.

(** How a promise ends: resolved with a value, rejected, never settled
    because the user types nothing more, or cut short by [process.exit];
    [OutOfFuel] is the embedding's own, for a loop that was given too few
    iterations. *)
Inductive result (A : Type) :=
| Resolved (a : A)
| Rejected (reason : string)
| Pending
| Exited (code : Z)
| OutOfFuel.
Arguments Resolved {A} a.
Arguments Rejected {A} reason.
Arguments Pending {A}.
Arguments Exited {A} code.
Arguments OutOfFuel {A}.

Definition M (A : Type) : Type := World → result A * World.

Definition ret {A} (a : A) : M A := λ w, (Resolved a, w).

Definition bind {A B} (m : M A) (k : A → M B) : M B := λ w,
  match m w with
  | (Resolved a, w') => k a w'
  | (Rejected reason, w') => (Rejected reason, w')
  | (Pending, w') => (Pending, w')
  | (Exited code, w') => (Exited code, w')
  | (OutOfFuel, w') => (OutOfFuel, w')
  end.


Declare Scope todo_scope.
Delimit Scope todo_scope with todo.
Notation "x <- m ;; k" := (bind m (λ x, k))
  (at level 100, m at next level, k at level 200, right associativity) : todo_scope.
Notation "m ;; k" := (bind m (λ _, k))
  (at level 100, k at level 200, right associativity) : todo_scope.
Local Open Scope todo_scope.

(** ** The environment: console, file system, readline, process *)

Definition console_log (text : string) : M unit := λ w,
  (Resolved (), {| file := file w; stdin := stdin w; stdout := stdout w ++ [Log text] |}).

Definition print (lines : list output) : M unit := λ w,
  (Resolved (), {| file := file w; stdin := stdin w; stdout := stdout w ++ lines |}).


(** [fs.writeFile(storagePath, JSON.stringify(taskList, null, 2))] *)
Definition fs_writeFile (taskList : list Item) : M unit := λ w,
  (Resolved (), {| file := Some taskList; stdin := stdin w; stdout := stdout w |}).

(** [JSON.parse(await fs.readFile(storagePath, 'utf8'))] *)
Definition fs_readFile : M (list Item) := λ w,
  match file w with
  | Some taskList => (Resolved taskList, w)
  | None => (Rejected "ENOENT", w)
  end.

(** [interface.question(question, answer => resolve(answer))] *)
Definition question (query : string) : M string := λ w,
  match stdin w with
  | answer :: rest =>
      (Resolved answer,
       {| file := file w; stdin := rest; stdout := stdout w ++ [Question query] |})
  | [] =>
      (Pending,
       {| file := file w; stdin := []; stdout := stdout w ++ [Question query] |})
  end.


(** [String.prototype.trim]: below code unit 256 it strips the code units
    that [JS.is_whitespace] names. *)
Definition trim (s : string) : string := Validator.trim s.

(** The value of a character as a digit, up to radix 36. *)
Definition digit_value (c : ascii) : option N :=
  let n := N_of_ascii c in
  if bool_decide (48 ≤ n ≤ 57)%N then Some (n - 48)%N
  else if bool_decide (97 ≤ n ≤ 122)%N then Some (n - 87)%N
  else if bool_decide (65 ≤ n ≤ 90)%N then Some (n - 55)%N
  else None.

(** The number that the longest prefix of [s] made of digits of the radix
    denotes, continuing from [acc]; with no such digit it is [acc]. *)
Fixpoint digits (radix : N) (s : string) (acc : option N) : option N :=
  match s with
  | String c s' =>
      match digit_value c with
      | Some d =>
          if bool_decide (d < radix)%N
          then digits radix s' (Some (default 0 acc * radix + d)%N)
          else acc
      | None => acc
      end
  | EmptyString => acc
  end.

(** [parseInt(s)] with no radix: leading whitespace is skipped, a sign is
    read, a prefix [0x] or [0X] selects radix 16, and the digits that follow
    are read up to the first character that is not one.  [None] is [NaN].
    The result is an exact integer; the program only subtracts 1 from it and
    compares it with 0 and with an array length, for which the rounding of a
    JavaScript number makes no difference. *)
Definition parseInt (s : string) : option Z :=
  let s := Validator.ltrim s in
  let '(sign, s) :=
    match s with
    | String "-" s' => ((-1)%Z, s')
    | String "+" s' => (1%Z, s')
    | _ => (1%Z, s)
    end in
  let '(radix, s) :=
    match s with
    | String "0" (String "x" s') => (16%N, s')
    | String "0" (String "X" s') => (16%N, s')
    | _ => (10%N, s)
    end in
  match digits radix s None with
  | Some n => Some (sign * Z.of_N n)%Z
  | None => None
  end.

(** [!isNaN(index) && index >= 0 && index < length] *)
Definition valid_index (index : option Z) (length : nat) : bool :=
  match index with
  | Some i => bool_decide (0 ≤ i)%Z && bool_decide (i < Z.of_nat length)%Z
  | None => false
  end.

(** Every character of [s] is whitespace. *)
Fixpoint blank (s : string) : bool :=
  match s with
  | String c s' => JS.is_whitespace c && blank s'
  | EmptyString => true
  end.

Definition nl : string := String "010" EmptyString.

(** ** The program *)


Definition getTasks : M (list Item) := fs_readFile.

Definition saveTasks (taskList : list Item) : M unit := fs_writeFile taskList.

Definition showTasks (taskList : list Item) : M unit :=
  console_log (nl +:+ " Current Tasks:") ;;
  if bool_decide (length taskList = 0)
  then console_log ("  No tasks found!" +:+ nl)
  else
    print (imap (λ position item, TaskLine (position + 1) (done item) (name item)) taskList) ;;
    console_log EmptyString.

Definition askUser (query : string) : M string := question query.

Definition newTask : M unit :=
  taskName <- askUser " What needs to be done? " ;;
  if bool_decide (trim taskName = EmptyString)
  then console_log "  Task name cannot be empty."
  else
    currentTasks <- getTasks ;;
    saveTasks (currentTasks ++ [ {| name := taskName; done := false |} ]) ;;
    console_log " Added new task!".

(** [item.done = true] *)
Definition set_done (item : Item) : Item := {| name := name item; done := true |}.

Definition finishTask : M unit :=
  currentTasks <- getTasks ;;
  if bool_decide (length currentTasks = 0)
  then console_log " No tasks to mark as done!"
  else
    showTasks currentTasks ;;
    taskPosition <- askUser " Which task did you finish? " ;;
    let index := (λ n, n - 1)%Z <$> parseInt taskPosition in
    if valid_index index (length currentTasks)
    then
      saveTasks (alter set_done (Z.to_nat (default 0%Z index)) currentTasks) ;;
      console_log " Great job completing that task!"
    else console_log "that task number doesn't exist".

Definition removeTask : M unit :=
  currentTasks <- getTasks ;;
  if bool_decide (length currentTasks = 0)
  then console_log " No tasks to remove!"
  else
    showTasks currentTasks ;;
    taskPosition <- askUser "  Which task to remove? " ;;
    let index := (λ n, n - 1)%Z <$> parseInt taskPosition in
    if valid_index index (length currentTasks)
    then
      let i := Z.to_nat (default 0%Z index) in
      saveTasks (delete i currentTasks) ;;
      match currentTasks !! i with
      | Some removed => print [Removed (name removed)]
      | None => λ w, (Rejected "TypeError", w)
      end
    else console_log " Oops, that task number doesn't exist".





(** ** Predicates of the proofs *)

(** What [showTasks] prints. *)
Definition listing (taskList : list Item) : list output :=
  Log (nl +:+ " Current Tasks:")
  :: match taskList with
     | [] => [Log ("  No tasks found!" +:+ nl)]
     | _ => imap (λ position item, TaskLine (position + 1) (done item) (name item)) taskList
            ++ [Log EmptyString]
     end.

(** [c] is one of the characters 0 to 9. *)
Definition decimal_digit (c : ascii) : Prop := (48 ≤ N_of_ascii c ≤ 57)%N.

(** The answer [lead ++ numeral ++ rest] to a question for a task number:
    whitespace, the decimal numeral of [n], and then anything that does not
    go on with a digit (nor, after the numeral 0, with an x). *)
Record numbered (n : N) (lead rest : string) : Prop := {
  lead_blank : blank lead = true;
  rest_no_digit : ∀ c r, rest = String c r → ¬ decimal_digit c;
  rest_no_hex : n = 0%N → ∀ c r, rest = String c r → c ≠ "x"%char ∧ c ≠ "X"%char
}.

(** The selected index, as [finishTask] and [removeTask] compute it. *)
Definition selected (answer : string) (taskList : list Item) : option nat :=
  let index := (λ n, n - 1)%Z <$> parseInt answer in
  if valid_index index (length taskList)
  then Some (Z.to_nat (default 0%Z index))
  else None.



End Todo.

(** * Properties *)

(** ** The handlers on the seed array *)

Example list_seed :
  (list_ (Some "todo") tasks0).1 = {| code := 200; json := Tasks (drop 1 tasks0) |}.
Proof. reflexivity. Qed.

Example create_ok_seed :
  (create "  Refactor module " (Some "done") {| Date_now := 1700000000000; new_Date := 1700000000001 |} tasks0).1
  = {| code := 201;
       json := OneTask (Task.mk "tsk-1700000000000" "Refactor module" "done" None
                          (Some 1700000000001%N) None) |}.
Proof. vm_compute. reflexivity. Qed.

(** ** The validation middleware *)

Lemma check_title_sanitized body :
  check_title (sanitize_title body)
  = if decide (title_rejected body) then [title_error] else [].
Proof.
  unfold check_title, Validator.isLength, title_rejected; simpl.
  case_bool_decide; case_decide; auto; lia.
Qed.

Lemma check_status_sanitized body :
  check_status (sanitize_title body)
  = if decide (status_rejected body) then [status_error] else [].
Proof.
  unfold check_status, Validator.isIn, status_rejected; simpl.
  case_bool_decide; case_decide; auto; contradiction.
Qed.

Lemma title_violated_rejected body : title_violated body ↔ title_rejected body.
Proof. unfold title_violated, title_rejected. lia. Qed.

Lemma status_violated_rejected body : status_violated body → status_rejected body.
Proof. intros (s & Hs & Hn). unfold status_rejected. by rewrite Hs. Qed.

Lemma status_absent_rejected body : Body.status body = None → status_rejected body.
Proof.
  intros Hs. unfold status_rejected. rewrite Hs. simpl.
  unfold statuses. rewrite !elem_of_cons, elem_of_nil.
  intros [?|[?|[?|[]]]]; discriminate.
Qed.

(** The middleware answers 400 with exactly the errors of the rejected
    fields, title first, and otherwise hands on the sanitized body. *)
Lemma validateTaskInput_cases body :
  validateTaskInput body =
    if decide (title_rejected body ∨ status_rejected body)
    then inl {| code := 400;
                json := Errors ((if decide (title_rejected body) then [title_error] else [])
                                ++ (if decide (status_rejected body) then [status_error] else [])) |}
    else inr (sanitize_title body).
Proof.
  unfold validateTaskInput.
  rewrite check_title_sanitized, check_status_sanitized.
  destruct (decide (title_rejected body)), (decide (status_rejected body));
    simpl; case_decide; try tauto; reflexivity.
Qed.

Lemma validateTaskInput_next body body' :
  validateTaskInput body = inr body' →
  body' = sanitize_title body ∧ ¬ title_rejected body ∧ ¬ status_rejected body.
Proof.
  rewrite validateTaskInput_cases. case_decide; [discriminate|].
  intros [= <-]. tauto.
Qed.

Lemma post_tasks_rejected body clock tasks res :
  validateTaskInput body = inl res → post_tasks body clock tasks = (res, tasks).
Proof. unfold post_tasks. by intros ->. Qed.

Lemma post_tasks_accepted body clock tasks body' :
  validateTaskInput body = inr body' →
  post_tasks body clock tasks
  = ({| code := 201; json := OneTask (newTask body' clock) |}, tasks ++ [newTask body' clock]).
Proof. unfold post_tasks. by intros ->. Qed.

(** ** The assignee check *)

Lemma prefix_app p s : String.prefix p s = true ↔ ∃ rest, s = p +:+ rest.
Proof.
  revert s. induction p as [|a p IH]; intros s; simpl.
  - split; [by exists s | by destruct s].
  - destruct s as [|b s]; simpl.
    + split; [discriminate | by intros (rest & ?)].
    + destruct (Ascii.ascii_dec a b) as [->|Hab].
      * rewrite IH. split; intros (rest & Hr); exists rest.
        -- by rewrite Hr.
        -- by injection Hr.
      * split; [discriminate|]. intros (rest & Hr). injection Hr as -> _. by destruct Hab.
Qed.

Lemma validateAssignee_valid assignee :
  validateAssignee (Some assignee) = true ↔ valid_assignee assignee.
Proof.
  unfold validateAssignee, valid_assignee, JS.truthy, JS.startsWith; simpl.
  rewrite andb_true_iff, bool_decide_eq_true, prefix_app. tauto.
Qed.

Lemma validateAssignee_absent : validateAssignee None = false.
Proof. reflexivity. Qed.

(** ** Lookup and update in the array *)

Lemma findTask_Some id tasks i task :
  findTask id tasks = Some (i, task) →
  tasks !! i = Some task ∧ Task.id task = id
  ∧ ∀ j t, tasks !! j = Some t → j < i → Task.id t ≠ id.
Proof. unfold findTask. by intros ?%list_find_Some. Qed.

Lemma findTask_None id tasks :
  findTask id tasks = None ↔ ∀ t, t ∈ tasks → Task.id t ≠ id.
Proof. unfold findTask. by rewrite list_find_None, Forall_forall. Qed.

Lemma findTask_is_Some id tasks :
  (∃ t, t ∈ tasks ∧ Task.id t = id) → is_Some (findTask id tasks).
Proof.
  intros (t & Hin & Hid). unfold findTask.
  by apply (list_find_elem_of _ _ t).
Qed.

(** The three ways [patch_assign] can end. *)
Lemma patch_assign_invalid taskId body clock tasks :
  validateAssignee (Body.assignee body) = false →
  patch_assign taskId body clock tasks
  = ({| code := 400; json := Error "Invalid assignee format" |}, tasks).
Proof. unfold patch_assign. by intros ->. Qed.

Lemma patch_assign_missing taskId body clock tasks :
  validateAssignee (Body.assignee body) = true →
  findTask taskId tasks = None →
  patch_assign taskId body clock tasks
  = ({| code := 404; json := Error "Task not found" |}, tasks).
Proof. unfold patch_assign. by intros -> ->. Qed.

Lemma patch_assign_found taskId body clock tasks i task :
  validateAssignee (Body.assignee body) = true →
  findTask taskId tasks = Some (i, task) →
  patch_assign taskId body clock tasks
  = ({| code := 200;
        json := OneTask (Task.set_assignee (Body.assignee body) (new_Date clock) task) |},
     alter (Task.set_assignee (Body.assignee body) (new_Date clock)) i tasks).
Proof. unfold patch_assign. by intros -> ->. Qed.

(** A request that is not answered with a success leaves the array alone. *)
Lemma patch_assign_failed taskId body clock tasks :
  ¬ succeeded (patch_assign taskId body clock tasks).1 →
  (patch_assign taskId body clock tasks).2 = tasks.
Proof.
  unfold patch_assign.
  destruct (validateAssignee _); simpl; [|done].
  destruct (findTask _ _) as [[i task]|]; simpl; [|done].
  unfold succeeded; simpl. lia.
Qed.

Lemma post_tasks_failed body clock tasks :
  ¬ succeeded (post_tasks body clock tasks).1 →
  (post_tasks body clock tasks).2 = tasks.
Proof.
  unfold post_tasks.
  destruct (validateTaskInput body); simpl; [done|].
  unfold succeeded; simpl. lia.
Qed.

Lemma get_tasks_unchanged status tasks : (get_tasks status tasks).2 = tasks.
Proof. reflexivity. Qed.

(** ** Invariants of the array *)

Lemma ids_set_assignee a now i (tasks : list Task.t) :
  Task.id <$> alter (Task.set_assignee a now) i tasks = Task.id <$> tasks.
Proof.
  rewrite (list_fmap_alter _ _ (λ x, x)) by (by apply Forall_true).
  by apply list_alter_id.
Qed.

Lemma statuses_set_assignee a now i (tasks : list Task.t) :
  Task.status <$> alter (Task.set_assignee a now) i tasks = Task.status <$> tasks.
Proof.
  rewrite (list_fmap_alter _ _ (λ x, x)) by (by apply Forall_true).
  by apply list_alter_id.
Qed.

Lemma patch_assign_ids taskId body clock tasks :
  Task.id <$> (patch_assign taskId body clock tasks).2 = Task.id <$> tasks.
Proof.
  unfold patch_assign.
  destruct (validateAssignee _); simpl; [|done].
  destruct (findTask _ _) as [[i task]|]; simpl; [|done].
  apply ids_set_assignee.
Qed.

Lemma patch_assign_statuses taskId body clock tasks :
  Task.status <$> (patch_assign taskId body clock tasks).2 = Task.status <$> tasks.
Proof.
  unfold patch_assign.
  destruct (validateAssignee _); simpl; [|done].
  destruct (findTask _ _) as [[i task]|]; simpl; [|done].
  apply statuses_set_assignee.
Qed.

Lemma newTask_status_ok body body' clock :
  validateTaskInput body = inr body' → status_ok (newTask body' clock).
Proof.
  intros (-> & _ & Hs)%validateTaskInput_next.
  unfold status_ok, status_rejected in *; simpl.
  destruct (Body.status body) as [s|]; simpl in *.
  - by destruct (decide (s ∈ statuses)).
  - compute_done.
Qed.

Lemma handle_status_ok req clock tasks :
  Forall status_ok tasks → Forall status_ok (handle req clock tasks).2.
Proof.
  intros Hall. destruct req as [status|body|id body]; simpl.
  - done.
  - unfold post_tasks. destruct (validateTaskInput body) as [res|body'] eqn:Hv; simpl; [done|].
    apply Forall_app. split; [done|].
    apply Forall_singleton. by eapply newTask_status_ok.
  - unfold status_ok in *.
    apply (Forall_fmap Task.status (λ s, s ∈ statuses)).
    rewrite patch_assign_statuses. by apply Forall_fmap.
Qed.

Lemma run_status_ok reqs tasks :
  Forall status_ok tasks → Forall status_ok (run reqs tasks).
Proof.
  revert tasks. induction reqs as [|[req clock] reqs IH]; intros tasks Hall; simpl; [done|].
  by apply IH, handle_status_ok.
Qed.

Lemma reachable_status_ok tasks : reachable tasks → Forall status_ok tasks.
Proof.
  intros (reqs & ->). apply run_status_ok.
  repeat constructor; compute_done.
Qed.

Lemma filter_unknown_status s tasks :
  Forall status_ok tasks → s ∉ statuses →
  filter (λ task, Task.status task = s) tasks = [].
Proof.
  intros Hall Hnot. induction Hall as [|task tasks Hok _ IH]; [done|].
  rewrite filter_cons_False; [done|].
  intros Hst. unfold status_ok in Hok. by rewrite Hst in Hok.
Qed.

Global Instance task_id_of_inj : Inj (=) (=) task_id_of.
Proof.
  intros m n Heq. unfold task_id_of, JS.Number_toString in Heq.
  injection Heq as Heq. by apply (inj pretty).
Qed.

Lemma run_ids_NoDup reqs tasks :
  NoDup (Task.id <$> tasks) →
  NoDup (id_readings reqs) →
  (∀ now, now ∈ id_readings reqs → task_id_of now ∉ Task.id <$> tasks) →
  NoDup (Task.id <$> run reqs tasks).
Proof.
  revert tasks.
  induction reqs as [|[[status|body|id body] clock] reqs IH]; intros tasks Hnd Hr Hfresh;
    simpl in *; [done|by apply IH|..].
  - unfold post_tasks.
    destruct (validateTaskInput body) as [res|body'] eqn:Hv; simpl; [by apply IH|].
    apply NoDup_cons in Hr as [Hnow Hr].
    apply IH; [|done|].
    + rewrite fmap_app. apply NoDup_app. split_and!; [done| |apply NoDup_singleton].
      intros x Hx [->|[]%elem_of_nil]%elem_of_cons.
      apply (Hfresh (Date_now clock)); [left|done].
    + intros now Hin. rewrite fmap_app, elem_of_app. intros [Hold|Hnew].
      * by apply (Hfresh now); [right|].
      * apply list_elem_of_singleton in Hnew.
        apply (inj task_id_of) in Hnew. by subst.
  - apply IH; [|done|]; rewrite patch_assign_ids; done.
Qed.

(** * The claims *)

(** C1 (as the code has it): [create("Refactor module")] with the status
    omitted is answered 400 with the single error "Invalid status", and the
    array is left as it was: the status chain of [validateTaskInput] is not
    optional, so the default [status = 'todo'] of the handler is never
    reached. *)
Theorem create_Refactor_module_without_status clock tasks :
  create "Refactor module" None clock tasks
  = ({| code := 400; json := Errors [status_error] |}, tasks).
Proof. reflexivity. Qed.

(** No title makes a create without a status succeed. *)
Lemma create_without_status_fails title clock tasks :
  ¬ succeeded (create title None clock tasks).1
  ∧ (create title None clock tasks).2 = tasks.
Proof.
  unfold create.
  assert (Hrej : status_rejected (Body.mk (Some title) None None))
    by by apply status_absent_rejected.
  pose proof (validateTaskInput_cases (Body.mk (Some title) None None)) as Hv.
  destruct (decide _) as [_|Hn] in Hv; [|tauto].
  rewrite (post_tasks_rejected _ _ _ _ Hv). split; [|done].
  unfold succeeded; simpl. lia.
Qed.

(** C2, counterexample: two creates that read the same millisecond from
    [Date.now()] both succeed and get the same id. *)
Lemma ids_not_unique :
  Task.id <$> run two_creates_in_one_millisecond tasks0
  = ["tsk-1"; "tsk-2"; "tsk-1700000000000"; "tsk-1700000000000"]
  ∧ ¬ NoDup (Task.id <$> run two_creates_in_one_millisecond tasks0).
Proof.
  split; [by vm_compute|].
  apply (bool_decide_eq_false_1 _). by vm_compute.
Qed.

Lemma run_ids_readings reqs tasks :
  Task.id <$> run reqs tasks
  = (Task.id <$> tasks) ++ (task_id_of <$> id_readings reqs).
Proof.
  revert tasks.
  induction reqs as [|[[status|body|id body] clock] reqs IH]; intros tasks; simpl.
  - by rewrite app_nil_r.
  - apply IH.
  - unfold post_tasks. destruct (validateTaskInput body) as [res|body']; simpl; [apply IH|].
    rewrite IH, fmap_app, <-app_assoc. reflexivity.
  - by rewrite IH, patch_assign_ids.
Qed.

Lemma run_ids_seed reqs :
  Task.id <$> run reqs tasks0 = task_id_of <$> (1%N :: 2%N :: id_readings reqs).
Proof. by rewrite run_ids_readings. Qed.

(** C2, amended: after every sequence of requests the ids in the array are
    pairwise distinct if and only if the [Date.now()] readings of the
    successful creates are pairwise distinct and none of them is 1 or 2 (the
    seed tasks are [tsk-1] and [tsk-2]).  A successful create allocates the
    id [tsk-] followed by its [Date.now()] reading, and that id differs from
    the id of every task already in the array if and only if the reading is
    not 1 or 2 and is not the reading of an earlier successful create. *)
Theorem ids_unique_for_distinct_readings reqs :
  (NoDup (Task.id <$> run reqs tasks0) ↔ NoDup (1%N :: 2%N :: id_readings reqs))
  ∧ ∀ body clock task,
      (post_tasks body clock (run reqs tasks0)).1
      = {| code := 201; json := OneTask task |} →
      Task.id task = "tsk-" +:+ JS.Number_toString (Date_now clock)
      ∧ (Task.id task ∉ Task.id <$> run reqs tasks0
         ↔ Date_now clock ∉ 1%N :: 2%N :: id_readings reqs).
Proof.
  split.
  - rewrite run_ids_seed. apply (NoDup_fmap task_id_of).
  - intros body clock task. unfold post_tasks.
    destruct (validateTaskInput body) as [res|body'] eqn:Hv; simpl.
    + rewrite validateTaskInput_cases in Hv. case_decide; [|discriminate].
      injection Hv as <-. discriminate.
    + intros [= <-]. split; [reflexivity|].
      rewrite run_ids_seed.
      change (Task.id (newTask body' clock)) with (task_id_of (Date_now clock)).
      split.
      * intros Hfresh Hin. apply Hfresh, list_elem_of_fmap. by eexists.
      * intros Hnew (reading & Heq & Hin)%list_elem_of_fmap.
        apply (inj task_id_of) in Heq. apply Hnew. by rewrite Heq.
Qed.

Lemma ids_unique_for_distinct_readings_witness :
  NoDup (Task.id <$> run
    [ (POST_tasks (Body.mk (Some "Refactor module") (Some "todo") None),
       {| Date_now := 1700000000000; new_Date := 1700000000000 |});
      (PATCH_assign "tsk-2" (Body.mk None None (Some "dev-9")),
       {| Date_now := 1700000000001; new_Date := 1700000000001 |});
      (POST_tasks (Body.mk (Some "Write the tests") (Some "done") None),
       {| Date_now := 1700000000002; new_Date := 1700000000002 |}) ] tasks0)
  ∧ "tsk-1700000000003" ∉ Task.id <$> run two_creates_in_one_millisecond tasks0.
Proof.
  split.
  - apply ids_unique_for_distinct_readings.
    apply (bool_decide_unpack _). vm_compute. exact I.
  - destruct (ids_unique_for_distinct_readings two_creates_in_one_millisecond)
      as [_ Hcreate].
    destruct (Hcreate (Body.mk (Some "Update the docs") (Some "todo") None)
                {| Date_now := 1700000000003; new_Date := 1700000000003 |}
                (Task.mk "tsk-1700000000003" "Update the docs" "todo" None
                   (Some 1700000000003%N) None)) as [_ Hfresh].
    + vm_compute. reflexivity.
    + apply Hfresh. apply (bool_decide_unpack _). vm_compute. exact I.
Defined.

(** C3: when a create violates field constraints, the answer is 400 and its
    error list has the error of every violated field, title and status alike;
    with both violated the list is the title error followed by the status
    error. *)
Theorem validation_lists_every_violation body clock tasks :
  title_violated body ∨ status_violated body →
  ∃ errors,
    (post_tasks body clock tasks).1 = {| code := 400; json := Errors errors |}
    ∧ (title_violated body → title_error ∈ errors)
    ∧ (status_violated body → status_error ∈ errors)
    ∧ (title_violated body → status_violated body →
       errors = [title_error; status_error]).
Proof.
  intros Hviol.
  assert (Hrej : title_rejected body ∨ status_rejected body).
  { destruct Hviol as [?%title_violated_rejected|?%status_violated_rejected];
      [by left|by right]. }
  pose proof (validateTaskInput_cases body) as Hv.
  destruct (decide (title_rejected body ∨ status_rejected body)) in Hv; [|tauto].
  rewrite (post_tasks_rejected _ _ _ _ Hv). eexists. split; [reflexivity|].
  split_and!.
  - intros Ht%title_violated_rejected. rewrite decide_True by exact Ht. by left.
  - intros Hs%status_violated_rejected.
    rewrite (decide_True (P := status_rejected body)) by exact Hs.
    apply elem_of_app. right. by left.
  - intros Ht%title_violated_rejected Hs%status_violated_rejected.
    by rewrite !decide_True.
Qed.

Lemma validation_lists_every_violation_witness :
  (create "ok" (Some "bogus") {| Date_now := 7; new_Date := 7 |} tasks0).1
  = {| code := 400; json := Errors [title_error; status_error] |}.
Proof.
  destruct (validation_lists_every_violation (Body.mk (Some "ok") (Some "bogus") None)
              {| Date_now := 7; new_Date := 7 |} tasks0) as (errors & Hres & _ & _ & Hboth).
  - left. unfold title_violated. simpl. lia.
  - assert (Ht : title_violated (Body.mk (Some "ok") (Some "bogus") None)).
    { unfold title_violated. simpl. lia. }
    assert (Hs : status_violated (Body.mk (Some "ok") (Some "bogus") None)).
    { exists "bogus". split; [reflexivity|]. apply (bool_decide_unpack _). vm_compute. exact I. }
    unfold create. rewrite Hres, (Hboth Ht Hs). reflexivity.
Defined.

(** C4: a request answered with a validation error (400) or a not-found error
    (404) leaves the array exactly as it was. *)
Theorem failed_request_leaves_tasks_unchanged req clock tasks :
  code (handle req clock tasks).1 = 400%N ∨ code (handle req clock tasks).1 = 404%N →
  (handle req clock tasks).2 = tasks.
Proof.
  intros Hcode.
  assert (Hfail : ¬ succeeded (handle req clock tasks).1).
  { unfold succeeded. destruct Hcode as [-> | ->]; lia. }
  destruct req as [status|body|id body]; simpl in *.
  - done.
  - by apply post_tasks_failed.
  - by apply patch_assign_failed.
Qed.

Lemma failed_request_leaves_tasks_unchanged_witness :
  (assign "tsk-1" "not-a-dev" {| Date_now := 7; new_Date := 7 |} tasks0).2 = tasks0
  ∧ (create "ok" None {| Date_now := 7; new_Date := 7 |} tasks0).2 = tasks0
  ∧ (assign "missing-id" "dev-9" {| Date_now := 7; new_Date := 7 |} tasks0).2 = tasks0.
Proof.
  split_and!.
  - apply (failed_request_leaves_tasks_unchanged
             (PATCH_assign "tsk-1" (Body.mk None None (Some "not-a-dev")))
             {| Date_now := 7; new_Date := 7 |} tasks0).
    left. reflexivity.
  - apply (failed_request_leaves_tasks_unchanged
             (POST_tasks (Body.mk (Some "ok") None None))
             {| Date_now := 7; new_Date := 7 |} tasks0).
    left. reflexivity.
  - apply (failed_request_leaves_tasks_unchanged
             (PATCH_assign "missing-id" (Body.mk None None (Some "dev-9")))
             {| Date_now := 7; new_Date := 7 |} tasks0).
    right. reflexivity.
Defined.

(** C5: an assign whose assignee string is empty or lacks the [dev-] prefix
    is answered 400 "Invalid assignee format"; an assign with a valid assignee
    and an id that no task in the array has is answered 404 "Task not found".
    The two answers differ. *)
Theorem assign_error_responses id assignee clock tasks :
  (¬ valid_assignee assignee →
   (assign id assignee clock tasks).1
   = {| code := 400; json := Error "Invalid assignee format" |})
  ∧ (valid_assignee assignee → (∀ t, t ∈ tasks → Task.id t ≠ id) →
     (assign id assignee clock tasks).1
     = {| code := 404; json := Error "Task not found" |})
  ∧ {| code := 400; json := Error "Invalid assignee format" |}
    ≠ {| code := 404; json := Error "Task not found" |}.
Proof.
  unfold assign. split_and!.
  - intros Hinv. rewrite patch_assign_invalid; [done|]. simpl.
    apply not_true_is_false. by rewrite validateAssignee_valid.
  - intros Hval Hmiss. rewrite patch_assign_missing; [done|..].
    + by apply validateAssignee_valid.
    + by apply findTask_None.
  - discriminate.
Qed.

Lemma assign_error_responses_witness :
  (assign "tsk-1" "not-a-dev" {| Date_now := 7; new_Date := 7 |} tasks0).1
  = {| code := 400; json := Error "Invalid assignee format" |}
  ∧ (assign "tsk-1" EmptyString {| Date_now := 7; new_Date := 7 |} tasks0).1
    = {| code := 400; json := Error "Invalid assignee format" |}
  ∧ (assign "missing-id" "dev-9" {| Date_now := 7; new_Date := 7 |} tasks0).1
    = {| code := 404; json := Error "Task not found" |}.
Proof.
  split_and!.
  - apply (assign_error_responses "tsk-1" "not-a-dev" {| Date_now := 7; new_Date := 7 |} tasks0).
    intros [_ (rest & Hrest)]. discriminate Hrest.
  - apply (assign_error_responses "tsk-1" EmptyString {| Date_now := 7; new_Date := 7 |} tasks0).
    intros [Hne _]. by apply Hne.
  - apply (assign_error_responses "missing-id" "dev-9" {| Date_now := 7; new_Date := 7 |} tasks0).
    + split; [discriminate|]. by exists "9".
    + intros t Hin. apply (bool_decide_unpack _).
      revert t Hin. apply Forall_forall. repeat constructor.
Defined.

(** C6, counterexample: [assign(existingId, "dev-9")] does not always return
    an [updatedAt] later than [createdAt].  The seed task [tsk-1] has no
    [createdAt] at all, and a task created and assigned within the same
    millisecond gets an [updatedAt] equal to its [createdAt]. *)
Lemma assign_updatedAt_not_later :
  (∃ task,
     (assign "tsk-1" "dev-9" {| Date_now := 1700000000000; new_Date := 1700000000000 |}
        tasks0).1 = {| code := 200; json := OneTask task |}
     ∧ Task.assignee task = Some "dev-9"
     ∧ Task.createdAt task = None
     ∧ ¬ later_than (Task.updatedAt task) (Task.createdAt task))
  ∧ (∃ task,
       let clock := {| Date_now := 1700000000000; new_Date := 1700000000000 |} in
       (assign "tsk-1700000000000" "dev-9" clock
          (create "Refactor module" (Some "todo") clock tasks0).2).1
       = {| code := 200; json := OneTask task |}
       ∧ Task.assignee task = Some "dev-9"
       ∧ Task.updatedAt task = Task.createdAt task
       ∧ ¬ later_than (Task.updatedAt task) (Task.createdAt task)).
Proof.
  split.
  - eexists. split; [by vm_compute|]. simpl. split_and!; [done..|tauto].
  - eexists. split; [by vm_compute|]. simpl. split_and!; [done..|lia].
Qed.

(** C6, amended: for every id that a task in the array has and every valid
    assignee string, assign answers 200, sets the assignee of the first task
    with that id to the given string and its [updatedAt] to the current clock
    reading, and returns that updated record; the [updatedAt] is later than
    the [createdAt] whenever the task has a [createdAt] and the clock reading
    at the assign is later than it. *)
Theorem assign_existing_task id assignee clock tasks :
  (∃ t, t ∈ tasks ∧ Task.id t = id) →
  valid_assignee assignee →
  ∃ i task task',
    findTask id tasks = Some (i, task)
    ∧ (assign id assignee clock tasks).1 = {| code := 200; json := OneTask task' |}
    ∧ (assign id assignee clock tasks).2 !! i = Some task'
    ∧ Task.id task' = id
    ∧ Task.assignee task' = Some assignee
    ∧ Task.updatedAt task' = Some (new_Date clock)
    ∧ (∀ created, Task.createdAt task = Some created →
         (created < new_Date clock)%N →
         later_than (Task.updatedAt task') (Task.createdAt task')).
Proof.
  intros [[i task] Hfind]%findTask_is_Some Hval%validateAssignee_valid.
  exists i, task, (Task.set_assignee (Some assignee) (new_Date clock) task).
  unfold assign. rewrite (patch_assign_found _ _ _ _ i task) by done. simpl.
  apply findTask_Some in Hfind as Hf. destruct Hf as (Hi & Hid & _).
  split_and!; try done.
  - rewrite list_lookup_alter_eq, Hi. done.
  - intros created Hc Hlt. simpl. by rewrite Hc.
Qed.

Lemma assign_existing_task_witness :
  ∃ task',
    (assign "tsk-2" "dev-9" {| Date_now := 1700000000005; new_Date := 1700000000005 |}
       tasks0).1 = {| code := 200; json := OneTask task' |}
    ∧ Task.assignee task' = Some "dev-9"
    ∧ Task.updatedAt task' = Some 1700000000005%N.
Proof.
  destruct (assign_existing_task "tsk-2" "dev-9"
              {| Date_now := 1700000000005; new_Date := 1700000000005 |} tasks0)
    as (i & task & task' & _ & Hres & _ & _ & Ha & Hu & _).
  - exists (Task.mk "tsk-2" "Write API documentation" "todo" None None None).
    split; [right; left | reflexivity].
  - split; [discriminate|]. by exists "9".
  - exists task'. by split_and!.
Defined.

(** C7, counterexample: the empty string is a filter value that is not one
    of the three statuses, and no task has it as its status, yet
    [GET /api/tasks?status=] returns the whole array: the handler takes the
    filter only when it is truthy. *)
Lemma list_empty_filter_returns_all :
  (EmptyString ∉ statuses)
  ∧ filter (λ task, Task.status task = EmptyString) tasks0 = []
  ∧ (list_ (Some EmptyString) tasks0).1 = {| code := 200; json := Tasks tasks0 |}
  ∧ (list_ (Some EmptyString) tasks0).1 ≠ {| code := 200; json := Tasks [] |}.
Proof.
  split_and!; [compute_done|reflexivity|reflexivity|discriminate].
Qed.

(** C7, amended: list always answers 200 and leaves the array as it was.
    With the filter absent or empty the result is the whole array in insertion
    order; with a non-empty filter [s] it is exactly the tasks whose status
    equals [s], in insertion order; and in every state the server can reach, a
    non-empty filter that is not one of the three statuses gives the empty
    list. *)
Theorem list_result filterStatus tasks :
  ∃ result,
    list_ filterStatus tasks = ({| code := 200; json := Tasks result |}, tasks)
    ∧ (filterStatus = None ∨ filterStatus = Some EmptyString → result = tasks)
    ∧ (∀ s, filterStatus = Some s → s ≠ EmptyString →
         result = filter (λ task, Task.status task = s) tasks
         ∧ result `sublist_of` tasks
         ∧ (reachable tasks → s ∉ statuses → result = [])).
Proof.
  unfold list_, get_tasks. eexists. split; [reflexivity|]. split.
  - by intros [-> | ->].
  - intros s -> Hs. simpl. rewrite bool_decide_eq_true_2 by done.
    assert (Heq : filter (λ task, Some (Task.status task) = Some s) tasks
                  = filter (λ task, Task.status task = s) tasks).
    { apply list_filter_iff. intros task. split; [by intros [= ->] | by intros ->]. }
    rewrite Heq. split_and!; [done|apply sublist_filter|].
    intros Hreach%reachable_status_ok Hnot. by apply filter_unknown_status.
Qed.

Lemma list_result_witness :
  (list_ None tasks0).1 = {| code := 200; json := Tasks tasks0 |}
  ∧ (list_ (Some "todo") tasks0).1
    = {| code := 200; json := Tasks (filter (λ task, Task.status task = "todo") tasks0) |}
  ∧ (list_ (Some "bogus") tasks0).1 = {| code := 200; json := Tasks [] |}.
Proof.
  split_and!.
  - destruct (list_result None tasks0) as (result & Hres & Hall & _).
    rewrite Hres. simpl. rewrite Hall; [reflexivity | by left].
  - destruct (list_result (Some "todo") tasks0) as (result & Hres & _ & Hs).
    rewrite Hres. simpl.
    assert (Hne : "todo" ≠ EmptyString) by discriminate.
    destruct (Hs "todo" eq_refl Hne) as (-> & _). reflexivity.
  - destruct (list_result (Some "bogus") tasks0) as (result & Hres & _ & Hs).
    rewrite Hres. simpl.
    assert (Hne : "bogus" ≠ EmptyString) by discriminate.
    destruct (Hs "bogus" eq_refl Hne) as (_ & _ & Hempty).
    rewrite Hempty; [reflexivity| |].
    + by exists [].
    + apply (bool_decide_unpack _). vm_compute. exact I.
Defined.

(** C8: two list calls in a row with the same argument give the same
    response, and the array after them is the array before them. *)
Theorem list_twice_same filterStatus tasks :
  let first := list_ filterStatus tasks in
  let second := list_ filterStatus first.2 in
  second.1 = first.1 ∧ second.2 = tasks.
Proof. simpl. split; reflexivity. Qed.

(** C9: a successful assign changes, at one position of the array, the
    [assignee] and [updatedAt] of the task with the given id and leaves its
    [id], [title], [status] and [createdAt] as they were; every other position
    holds the task it held before, and the array keeps its length. *)
Theorem assign_frame taskId body clock tasks :
  succeeded (patch_assign taskId body clock tasks).1 →
  ∃ i task task',
    tasks !! i = Some task
    ∧ Task.id task = taskId
    ∧ (patch_assign taskId body clock tasks).2 !! i = Some task'
    ∧ Task.id task' = Task.id task
    ∧ Task.title task' = Task.title task
    ∧ Task.status task' = Task.status task
    ∧ Task.createdAt task' = Task.createdAt task
    ∧ Task.assignee task' = Body.assignee body
    ∧ Task.updatedAt task' = Some (new_Date clock)
    ∧ (∀ j, j ≠ i → (patch_assign taskId body clock tasks).2 !! j = tasks !! j)
    ∧ length (patch_assign taskId body clock tasks).2 = length tasks.
Proof.
  unfold patch_assign, succeeded.
  destruct (validateAssignee _); simpl; [|lia].
  destruct (findTask taskId tasks) as [[i task]|] eqn:Hfind; simpl; [|lia].
  intros _. apply findTask_Some in Hfind as (Hi & Hid & _).
  exists i, task, (Task.set_assignee (Body.assignee body) (new_Date clock) task).
  split_and!; try done.
  - by rewrite list_lookup_alter_eq, Hi.
  - intros j Hj. by apply list_lookup_alter_ne.
  - apply length_alter.
Qed.

Lemma assign_frame_witness :
  (assign "tsk-2" "dev-9" {| Date_now := 9; new_Date := 9 |} tasks0).2
  = [ Task.mk "tsk-1" "Refactor auth module" "in-progress" (Some "dev-1") None None;
      Task.mk "tsk-2" "Write API documentation" "todo" (Some "dev-9") None (Some 9%N) ]
  ∧ ∃ i task task',
      tasks0 !! i = Some task
      ∧ (assign "tsk-2" "dev-9" {| Date_now := 9; new_Date := 9 |} tasks0).2 !! i = Some task'
      ∧ Task.title task' = Task.title task.
Proof.
  split; [reflexivity|].
  destruct (assign_frame "tsk-2" (Body.mk None None (Some "dev-9"))
              {| Date_now := 9; new_Date := 9 |} tasks0)
    as (i & task & task' & Hi & _ & Hi' & _ & Ht & _).
  - unfold succeeded. simpl. lia.
  - exists i, task, task'. by split_and!.
Defined.

(** C10: [validateAssignee] accepts exactly the non-empty strings that start
    with [dev-]; the bare string [dev-] is one of them, so [assign(id, "dev-")]
    answers 200 with the assignee set to [dev-] for every id that a task in
    the array has. *)
Theorem bare_dev_prefix_is_accepted :
  (∀ s, validateAssignee (Some s) = true ↔ s ≠ EmptyString ∧ ∃ rest, s = "dev-" +:+ rest)
  ∧ validateAssignee (Some "dev-") = true
  ∧ ∀ id clock tasks,
      (∃ t, t ∈ tasks ∧ Task.id t = id) →
      ∃ task',
        (assign id "dev-" clock tasks).1 = {| code := 200; json := OneTask task' |}
        ∧ Task.assignee task' = Some "dev-".
Proof.
  split_and!; [apply validateAssignee_valid|reflexivity|].
  intros id clock tasks [[i task] Hfind]%findTask_is_Some.
  unfold assign. rewrite (patch_assign_found _ _ _ _ i task) by done.
  by eexists.
Qed.

Lemma bare_dev_prefix_is_accepted_witness :
  ∃ task',
    (assign "tsk-1" "dev-" {| Date_now := 9; new_Date := 9 |} tasks0).1
    = {| code := 200; json := OneTask task' |}
    ∧ Task.assignee task' = Some "dev-".
Proof.
  destruct bare_dev_prefix_is_accepted as (_ & _ & Hassign).
  apply (Hassign "tsk-1" {| Date_now := 9; new_Date := 9 |} tasks0).
  exists (Task.mk "tsk-1" "Refactor auth module" "in-progress" (Some "dev-1") None None).
  split; [left | reflexivity].
Defined.

(** * Further properties of the server *)

(** ** The trim sanitizer *)

Lemma ltrim_head s c r :
  Validator.ltrim s = String c r → JS.is_whitespace c = false.
Proof.
  induction s as [|a s IH]; simpl; [discriminate|].
  destruct (JS.is_whitespace a) eqn:Ha; [done|].
  by intros [= <- _].
Qed.


Lemma append_nil_l (s : string) : EmptyString +:+ s = s.
Proof. reflexivity. Qed.

Lemma append_cons (a : ascii) (r s : string) : String a r +:+ s = String a (r +:+ s).
Proof. reflexivity. Qed.




(** ** Create *)

Lemma isIn_statuses s : s ∈ statuses ↔ s = "todo" ∨ s = "in-progress" ∨ s = "done".
Proof. unfold statuses. rewrite !elem_of_cons, elem_of_nil. tauto. Qed.

Lemma status_accepted_given body :
  ¬ status_rejected body → ∃ s, Body.status body = Some s ∧ s ∈ statuses.
Proof.
  unfold status_rejected. destruct (Body.status body) as [s|]; simpl.
  - intros Hs. exists s. split; [done|]. by destruct (decide (s ∈ statuses)).
  - intros Hs. destruct Hs. rewrite isIn_statuses. intros [?|[?|?]]; discriminate.
Qed.

Lemma title_accepted_given body :
  ¬ title_rejected body →
  ∃ raw, Body.title body = Some raw ∧ 5 ≤ String.length (Validator.trim raw).
Proof.
  unfold title_rejected. destruct (Body.title body) as [raw|]; simpl.
  - intros Hs. exists raw. split; [done|]. lia.
  - intros Hs. destruct Hs. simpl. lia.
Qed.

(** X1: what POST /api/tasks does with a body whose title and status are
    strings or absent.  With a title of at least 5 characters after trimming
    and a status that is one of the strings todo, in-progress and done it
    answers 201: the record made has the trimmed title, that status, the id
    [tsk-] followed by the [Date.now()] reading, no assignee, the
    [new Date()] reading as [createdAt] and no [updatedAt], and it is appended
    to the array, whose earlier tasks stay as they are.  With the title absent
    or shorter than 5 characters after trimming, or with the status absent or
    a string that is none of the three, it answers 400, names every such field
    in its error list, and leaves the array as it was. *)
Theorem create_outcomes body clock tasks :
  (∀ raw s, Body.title body = Some raw → 5 ≤ String.length (Validator.trim raw) →
      Body.status body = Some s → s ∈ statuses →
      let task := Task.mk (task_id_of (Date_now clock)) (Validator.trim raw) s None
                    (Some (new_Date clock)) None in
      post_tasks body clock tasks
      = ({| code := 201; json := OneTask task |}, tasks ++ [task]))
  ∧ ((Body.title body = None
      ∨ (∃ raw, Body.title body = Some raw ∧ String.length (Validator.trim raw) < 5)
      ∨ Body.status body = None
      ∨ (∃ s, Body.status body = Some s ∧ s ∉ statuses)) →
     ∃ errors,
       post_tasks body clock tasks = ({| code := 400; json := Errors errors |}, tasks)
       ∧ (Body.title body = None → title_error ∈ errors)
       ∧ (∀ raw, Body.title body = Some raw → String.length (Validator.trim raw) < 5 →
            title_error ∈ errors)
       ∧ (Body.status body = None → status_error ∈ errors)
       ∧ (∀ s, Body.status body = Some s → s ∉ statuses → status_error ∈ errors)).
Proof.
  split.
  - intros raw s Ht Hlen Hs Hin task.
    unfold post_tasks. rewrite validateTaskInput_cases.
    rewrite decide_False.
    + unfold newTask, sanitize_title. simpl. rewrite Ht, Hs. reflexivity.
    + unfold title_rejected, status_rejected. rewrite Ht, Hs. simpl. tauto.
  - intros Hbad.
    assert (Hrej : title_rejected body ∨ status_rejected body).
    { unfold title_rejected, status_rejected.
      destruct Hbad as [Ht|[(raw & Ht & Hlen)|[Hs|(s & Hs & Hn)]]]; rewrite ?Ht, ?Hs; simpl.
      - left. simpl. lia.
      - left. lia.
      - right. rewrite isIn_statuses. intros [?|[?|?]]; discriminate.
      - by right. }
    pose proof (validateTaskInput_cases body) as Hv.
    destruct (decide (title_rejected body ∨ status_rejected body)) in Hv; [|tauto].
    unfold post_tasks. rewrite Hv. eexists. split; [reflexivity|].
    assert (Htitle : title_rejected body →
              title_error ∈ (if decide (title_rejected body) then [title_error] else [])
                            ++ (if decide (status_rejected body) then [status_error] else [])).
    { intros H. rewrite (decide_True (P := title_rejected body)) by exact H. by left. }
    assert (Hstatus : status_rejected body →
              status_error ∈ (if decide (title_rejected body) then [title_error] else [])
                             ++ (if decide (status_rejected body) then [status_error] else [])).
    { intros H. rewrite (decide_True (P := status_rejected body)) by exact H.
      apply elem_of_app. right. by left. }
    split_and!.
    + intros Ht. apply Htitle. unfold title_rejected. rewrite Ht. simpl. lia.
    + intros raw Ht Hlen. apply Htitle. unfold title_rejected. rewrite Ht. simpl. lia.
    + intros Hs. apply Hstatus. by apply status_absent_rejected.
    + intros s Hs Hn. apply Hstatus. unfold status_rejected. by rewrite Hs.
Qed.

Lemma create_outcomes_witness :
  post_tasks (Body.mk (Some " Ship it now ") (Some "done") None)
    {| Date_now := 41; new_Date := 42 |} tasks0
  = ({| code := 201;
        json := OneTask (Task.mk "tsk-41" "Ship it now" "done" None (Some 42%N) None) |},
     tasks0 ++ [Task.mk "tsk-41" "Ship it now" "done" None (Some 42%N) None])
  ∧ ∃ errors,
      post_tasks (Body.mk (Some " ok ") (Some "doing") None)
        {| Date_now := 41; new_Date := 42 |} tasks0
      = ({| code := 400; json := Errors errors |}, tasks0)
      ∧ title_error ∈ errors ∧ status_error ∈ errors.
Proof.
  split.
  - destruct (create_outcomes (Body.mk (Some " Ship it now ") (Some "done") None)
                {| Date_now := 41; new_Date := 42 |} tasks0) as [Hmk _].
    apply (Hmk " Ship it now " "done"); [reflexivity| |reflexivity|].
    + vm_compute. lia.
    + apply (bool_decide_unpack _). vm_compute. exact I.
  - destruct (create_outcomes (Body.mk (Some " ok ") (Some "doing") None)
                {| Date_now := 41; new_Date := 42 |} tasks0) as [_ Hbad].
    destruct Hbad as (errors & Hres & _ & Ht & _ & Hs).
    + right. left. exists " ok ". split; [reflexivity|]. vm_compute. lia.
    + exists errors. split_and!; [exact Hres| |].
      * apply (Ht " ok "); [reflexivity|]. vm_compute. lia.
      * apply (Hs "doing"); [reflexivity|]. apply (bool_decide_unpack _). vm_compute. exact I.
Defined.

Lemma post_tasks_created body clock tasks task :
  (post_tasks body clock tasks).1 = {| code := 201; json := OneTask task |} →
  ∃ body', validateTaskInput body = inr body'
           ∧ task = newTask body' clock
           ∧ (post_tasks body clock tasks).2 = tasks ++ [task].
Proof.
  unfold post_tasks. destruct (validateTaskInput body) as [res|body'] eqn:Hv; simpl.
  - rewrite validateTaskInput_cases in Hv. case_decide; [|discriminate]. injection Hv as <-. discriminate.
  - intros [= <-]. by exists body'.
Qed.



(** ** What holds in every state *)

Lemma newTask_wf body body' clock :
  validateTaskInput body = inr body' → task_wf (newTask body' clock).
Proof.
  intros Hv. pose proof (newTask_status_ok _ _ clock Hv) as Hst.
  apply validateTaskInput_next in Hv as (-> & Ht & Hs).
  destruct (title_accepted_given body Ht) as (raw & Hraw & Hlen).
  split; simpl.
  - by eexists.
  - by rewrite Hraw.
  - exact Hst.
  - discriminate.
  - by intros [? ?].
Qed.

Lemma set_assignee_wf a now task :
  valid_assignee a → task_wf task → task_wf (Task.set_assignee (Some a) now task).
Proof.
  intros Ha [Hid Ht Hs _ _]. split; simpl; try done.
  by intros ? [= <-].
Qed.

Lemma handle_wf req clock tasks :
  Forall task_wf tasks → Forall task_wf (handle req clock tasks).2.
Proof.
  intros Hall. destruct req as [status|body|id body]; simpl; [done|..].
  - unfold post_tasks. destruct (validateTaskInput body) as [res|body'] eqn:Hv; simpl; [done|].
    apply Forall_app. split; [done|].
    apply Forall_singleton. by eapply newTask_wf.
  - unfold patch_assign.
    destruct (validateAssignee (Body.assignee body)) eqn:Hval; simpl; [|done].
    destruct (findTask id tasks) as [[i task]|]; simpl; [|done].
    destruct (Body.assignee body) as [a|]; [|discriminate].
    apply validateAssignee_valid in Hval.
    apply Forall_alter; [done|]. intros t _ Ht. by apply set_assignee_wf.
Qed.

Lemma tasks0_wf : Forall task_wf tasks0.
Proof.
  unfold tasks0. apply Forall_cons_2; [|apply Forall_cons_2; [|constructor]].
  - split; simpl.
    + by exists "1".
    + lia.
    + apply isIn_statuses; auto.
    + intros a' [= <-]. split; [discriminate | by exists "1"].
    + by intros [? ?].
  - split; simpl.
    + by exists "2".
    + lia.
    + apply isIn_statuses; auto.
    + discriminate.
    + by intros [? ?].
Qed.

Lemma run_tasks0_wf reqs : Forall task_wf (run reqs tasks0).
Proof.
  generalize tasks0_wf. generalize tasks0.
  induction reqs as [|[req clock] reqs IH]; intros tasks Hall; simpl; [done|].
  by apply IH, handle_wf.
Qed.

Lemma task_wf_sound task : task_wf task → task_sound task.
Proof. intros [Hid _ _ Ha Hu]. by split. Qed.

(** X3: in every state the server can reach, every task has an id that
    starts with [tsk-], an assignee that is null or a non-empty string with
    the prefix [dev-], and an [updatedAt] only if it has an assignee: the id
    is made by the server, and the two other fields are written by a
    successful assign only. *)
Theorem reachable_tasks_sound reqs :
  Forall task_sound (run reqs tasks0).
Proof.
  eapply Forall_impl; [apply run_tasks0_wf|]. apply task_wf_sound.
Qed.

(** ** What no request undoes *)

Lemma task_kept_refl task : task_kept task task.
Proof. by split. Qed.

Lemma task_kept_trans t1 t2 t3 : task_kept t1 t2 → task_kept t2 t3 → task_kept t1 t3.
Proof.
  intros [] []. split; try congruence; auto.
Qed.

Lemma handle_keeps req clock tasks i task :
  tasks !! i = Some task →
  ∃ task', (handle req clock tasks).2 !! i = Some task' ∧ task_kept task task'.
Proof.
  intros Hi. destruct req as [status|body|id body]; simpl.
  - exists task. split; [done|apply task_kept_refl].
  - exists task. split; [|apply task_kept_refl].
    unfold post_tasks. destruct (validateTaskInput body); simpl; [done|].
    by apply lookup_app_l_Some.
  - unfold patch_assign.
    destruct (validateAssignee (Body.assignee body)) eqn:Hval; simpl;
      [|exists task; split; [done|apply task_kept_refl]].
    destruct (findTask id tasks) as [[k found]|]; simpl;
      [|exists task; split; [done|apply task_kept_refl]].
    destruct (decide (k = i)) as [->|Hne].
    + eexists. rewrite list_lookup_alter_eq, Hi. split; [reflexivity|].
      split; simpl; try done.
      intros _. destruct (Body.assignee body); [by eexists|discriminate].
    + exists task. rewrite list_lookup_alter_ne by done.
      split; [done|apply task_kept_refl].
Qed.

(** X4: no request removes, moves or renames a task.  After any sequence of
    requests a task of the array is still at its position with the same id,
    title, status and [createdAt]; if it had an assignee it still has one, and
    if it had an [updatedAt] it still has one.  The array never gets
    shorter. *)
Theorem tasks_are_kept reqs tasks :
  length tasks ≤ length (run reqs tasks)
  ∧ ∀ i task, tasks !! i = Some task →
      ∃ task', run reqs tasks !! i = Some task' ∧ task_kept task task'.
Proof.
  assert (Hkept : ∀ reqs tasks i task, tasks !! i = Some task →
            ∃ task', run reqs tasks !! i = Some task' ∧ task_kept task task').
  { clear. induction reqs as [|[req clock] reqs IH]; intros tasks i task Hi; simpl.
    - exists task. split; [done|apply task_kept_refl].
    - destruct (handle_keeps req clock tasks i task Hi) as (t1 & H1 & Hk1).
      destruct (IH _ i t1 H1) as (t2 & H2 & Hk2).
      exists t2. split; [done|]. by eapply task_kept_trans. }
  split; [|by apply Hkept].
  destruct (decide (length tasks ≤ length (run reqs tasks))) as [|Hlt]; [done|].
  exfalso.
  assert (Hpos : length (run reqs tasks) < length tasks) by lia.
  apply lookup_lt_is_Some_2 in Hpos as [task Hi].
  destruct (Hkept reqs tasks _ task Hi) as (task' & Hi' & _).
  apply lookup_lt_Some in Hi'. lia.
Qed.

Lemma patch_assign_other taskId body clock tasks i j t t' :
  i < j → tasks !! i = Some t → tasks !! j = Some t' → Task.id t = Task.id t' →
  (patch_assign taskId body clock tasks).2 !! j = Some t'.
Proof.
  intros Hij Hi Hj Hid. unfold patch_assign.
  destruct (validateAssignee (Body.assignee body)); simpl; [|done].
  destruct (findTask taskId tasks) as [[k found]|] eqn:Hfind; simpl; [|done].
  apply findTask_Some in Hfind as (Hk & Hfid & Hmin).
  rewrite list_lookup_alter_ne; [done|].
  intros ->. rewrite Hj in Hk. injection Hk as <-.
  by apply (Hmin i t Hi Hij); rewrite Hid.
Qed.

(** X5: [findTask] returns the first task with the id, so a task whose id an
    earlier task of the array also has is out of reach of assign: whatever
    requests follow, it stays exactly as it is. *)
Theorem shadowed_task_never_changes reqs tasks i j t t' :
  i < j → tasks !! i = Some t → tasks !! j = Some t' → Task.id t = Task.id t' →
  run reqs tasks !! j = Some t'.
Proof.
  revert tasks t. induction reqs as [|[req clock] reqs IH];
    intros tasks t Hij Hi Hj Hid; simpl; [done|].
  destruct (handle_keeps req clock tasks i t Hi) as (t1 & Hi1 & Hk).
  apply (IH _ t1); [done|done| |by rewrite (kept_id _ _ Hk)].
  destruct req as [status|body|id body]; simpl.
  - done.
  - unfold post_tasks. destruct (validateTaskInput body); simpl; [done|].
    by apply lookup_app_l_Some.
  - by eapply patch_assign_other.
Qed.

Lemma shadowed_task_never_changes_witness :
  run [ (PATCH_assign "tsk-1700000000000" (Body.mk None None (Some "dev-9")),
         {| Date_now := 1700000000007; new_Date := 1700000000007 |}) ]
      (run two_creates_in_one_millisecond tasks0) !! 3
  = Some (Task.mk "tsk-1700000000000" "Write the tests" "todo" None
            (Some 1700000000000%N) None).
Proof.
  apply (shadowed_task_never_changes _ _ 2 3
           (Task.mk "tsk-1700000000000" "Refactor module" "todo" None
              (Some 1700000000000%N) None)).
  - lia.
  - vm_compute. reflexivity.
  - vm_compute. reflexivity.
  - reflexivity.
Defined.

Lemma tasks_are_kept_witness :
  ∃ task',
    run two_creates_in_one_millisecond tasks0 !! 1 = Some task'
    ∧ Task.title task' = "Write API documentation".
Proof.
  destruct (tasks_are_kept two_creates_in_one_millisecond tasks0) as [_ Hkept].
  destruct (Hkept 1 (Task.mk "tsk-2" "Write API documentation" "todo" None None None))
    as (task' & Hi & Hk); [reflexivity|].
  exists task'. split; [exact Hi | exact (kept_title _ _ Hk)].
Defined.

(** ** The ids in the array *)

(** X6: the ids in the array are the ids it started with followed by one id
    per create that passed validation, in the order of the requests, each
    [tsk-] followed by the decimal [Date.now()] reading of its request; so the
    array of a server that handled [reqs] has two tasks more than [reqs] has
    successful creates. *)
Theorem ids_after_run reqs tasks :
  Task.id <$> run reqs tasks = (Task.id <$> tasks) ++ (task_id_of <$> id_readings reqs)
  ∧ length (run reqs tasks0) = 2 + length (id_readings reqs).
Proof.
  assert (Hids : ∀ reqs tasks,
            Task.id <$> run reqs tasks
            = (Task.id <$> tasks) ++ (task_id_of <$> id_readings reqs)).
  { clear. induction reqs as [|[[status|body|id body] clock] reqs IH]; intros tasks; simpl.
    - by rewrite app_nil_r.
    - apply IH.
    - unfold post_tasks. destruct (validateTaskInput body) as [res|body']; simpl; [apply IH|].
      rewrite IH, fmap_app, <-app_assoc. reflexivity.
    - by rewrite IH, patch_assign_ids. }
  split; [apply Hids|].
  rewrite <-(length_fmap Task.id), Hids, length_app, !length_fmap. reflexivity.
Qed.

(** ** List after the other operations *)

Lemma tasks_of_get_tasks status tasks :
  tasks_of (get_tasks status tasks).1
  = if JS.truthy status
    then filter (λ task, Some (Task.status task) = status) tasks
    else tasks.
Proof. reflexivity. Qed.

Lemma filter_status_split (tasks : list Task.t) :
  Forall status_ok tasks →
  filter (λ task, Some (Task.status task) = Some "todo") tasks
  ++ filter (λ task, Some (Task.status task) = Some "in-progress") tasks
  ++ filter (λ task, Some (Task.status task) = Some "done") tasks
  ≡ₚ tasks.
Proof.
  induction 1 as [|task tasks Hok _ IH]; [done|].
  unfold status_ok in Hok. apply isIn_statuses in Hok.
  destruct Hok as [Hs|[Hs|Hs]].
  - rewrite filter_cons_True by (by rewrite Hs).
    rewrite 2!filter_cons_False by (rewrite Hs; discriminate).
    simpl. by f_equiv.
  - rewrite filter_cons_False by (rewrite Hs; discriminate).
    rewrite filter_cons_True by (by rewrite Hs).
    rewrite filter_cons_False by (rewrite Hs; discriminate).
    simpl. rewrite <-Permutation_middle. by f_equiv.
  - rewrite 2!filter_cons_False by (rewrite Hs; discriminate).
    rewrite filter_cons_True by (by rewrite Hs).
    rewrite app_assoc, <-Permutation_middle, <-app_assoc. by f_equiv.
Qed.

Lemma filter_status_sub (tasks : list Task.t) :
  filter (λ task, Some (Task.status task) = Some "todo") tasks
  ++ filter (λ task, Some (Task.status task) = Some "in-progress") tasks
  ++ filter (λ task, Some (Task.status task) = Some "done") tasks
  ⊆+ tasks.
Proof.
  induction tasks as [|task tasks IH]; [done|].
  destruct (decide (Task.status task = "todo")) as [Hs|Htodo].
  { rewrite filter_cons_True by (by rewrite Hs).
    rewrite 2!filter_cons_False by (rewrite Hs; discriminate).
    simpl. by apply submseteq_skip. }
  destruct (decide (Task.status task = "in-progress")) as [Hs|Hprog].
  { rewrite filter_cons_False by (rewrite Hs; discriminate).
    rewrite filter_cons_True by (by rewrite Hs).
    rewrite filter_cons_False by (rewrite Hs; discriminate).
    simpl. rewrite <-Permutation_middle. by apply submseteq_skip. }
  destruct (decide (Task.status task = "done")) as [Hs|Hdone].
  { rewrite 2!filter_cons_False by (rewrite Hs; discriminate).
    rewrite filter_cons_True by (by rewrite Hs).
    rewrite app_assoc, <-Permutation_middle, <-app_assoc. by apply submseteq_skip. }
  rewrite 3!filter_cons_False by (intros [= ?]; done).
  by apply submseteq_cons.
Qed.

(** X7: the three filtered lists (status todo, in-progress and done) never
    share a task and never hold a task the array does not hold: put one after
    the other they are a sub-collection of the unfiltered list.  In a state in
    which every task has one of the three statuses they hold every task: put
    one after the other they are a rearrangement of the unfiltered list. *)
Theorem filtered_lists_partition tasks :
  (tasks_of (list_ (Some "todo") tasks).1
   ++ tasks_of (list_ (Some "in-progress") tasks).1
   ++ tasks_of (list_ (Some "done") tasks).1
   ⊆+ tasks_of (list_ None tasks).1)
  ∧ (Forall (λ task, Task.status task ∈ statuses) tasks →
     tasks_of (list_ (Some "todo") tasks).1
     ++ tasks_of (list_ (Some "in-progress") tasks).1
     ++ tasks_of (list_ (Some "done") tasks).1
     ≡ₚ tasks_of (list_ None tasks).1).
Proof.
  unfold list_. rewrite !tasks_of_get_tasks. simpl. split.
  - apply filter_status_sub.
  - apply filter_status_split.
Qed.

Lemma filtered_lists_partition_witness :
  tasks_of (list_ (Some "todo") tasks0).1
  ++ tasks_of (list_ (Some "in-progress") tasks0).1
  ++ tasks_of (list_ (Some "done") tasks0).1
  ≡ₚ tasks0.
Proof.
  apply (filtered_lists_partition tasks0).
  apply Forall_cons_2; [|apply Forall_cons_2; [|constructor]];
    apply (bool_decide_unpack _); vm_compute; exact I.
Defined.

Lemma filter_alter_ids (P : Task.t → Prop) `{!∀ t, Decision (P t)} g i (tasks : list Task.t) :
  (∀ t, P (g t) ↔ P t) → (∀ t, Task.id (g t) = Task.id t) →
  Task.id <$> filter P (alter g i tasks) = Task.id <$> filter P tasks.
Proof.
  intros HP Hid. revert i. induction tasks as [|t tasks IH]; intros i; [done|].
  destruct i as [|i].
  - change (alter g 0 (t :: tasks)) with (g t :: tasks). rewrite !filter_cons.
    destruct (decide (P (g t))) as [Hg|Hg], (decide (P t)) as [Ht|Ht]; simpl.
    + by rewrite Hid.
    + destruct Ht. by apply (HP t).
    + destruct Hg. by apply (HP t).
    + done.
  - change (alter g (S i) (t :: tasks)) with (t :: alter g i tasks).
    rewrite !filter_cons. destruct (decide (P t)); [rewrite !fmap_cons; f_equal|]; apply IH.
Qed.

(** X8: an assign never moves a task from one filtered list to another: for
    every filter, the list before and the list after a PATCH request (whether
    it succeeds or not) name the same tasks in the same order. *)
Theorem assign_keeps_filtered_lists filterStatus taskId body clock tasks :
  Task.id <$> tasks_of (list_ filterStatus (patch_assign taskId body clock tasks).2).1
  = Task.id <$> tasks_of (list_ filterStatus tasks).1.
Proof.
  unfold list_. rewrite !tasks_of_get_tasks.
  destruct (JS.truthy filterStatus); [|apply patch_assign_ids].
  unfold patch_assign.
  destruct (validateAssignee (Body.assignee body)); simpl; [|done].
  destruct (findTask taskId tasks) as [[i task]|]; simpl; [|done].
  by apply filter_alter_ids.
Qed.

(** X9: after a successful create whose status field is the string [s], the
    new task is the last one of the unfiltered list and of the list filtered
    by [s], and the list filtered by any other non-empty string is as it was
    before the create. *)
Theorem created_task_is_listed_last body clock tasks task s :
  Body.status body = Some s →
  (post_tasks body clock tasks).1 = {| code := 201; json := OneTask task |} →
  let tasks' := (post_tasks body clock tasks).2 in
  Task.status task = s
  ∧ tasks_of (list_ None tasks').1 = tasks ++ [task]
  ∧ tasks_of (list_ (Some s) tasks').1 = tasks_of (list_ (Some s) tasks).1 ++ [task]
  ∧ ∀ s', s' ≠ EmptyString → s' ≠ s →
      tasks_of (list_ (Some s') tasks').1 = tasks_of (list_ (Some s') tasks).1.
Proof.
  intros Hstatus Hres tasks'.
  pose proof (post_tasks_created _ _ _ _ Hres) as (body' & Hv & Htask & Htasks).
  assert (Hs : Task.status task = s).
  { apply validateTaskInput_next in Hv as (-> & _ & _).
    rewrite Htask. unfold newTask, sanitize_title. simpl. by rewrite Hstatus. }
  assert (Hne : s ≠ EmptyString).
  { pose proof (newTask_status_ok _ _ clock Hv) as Hok. rewrite <-Htask in Hok.
    unfold status_ok in Hok. rewrite Hs in Hok. apply isIn_statuses in Hok.
    intros He. rewrite He in Hok. destruct Hok as [?|[?|?]]; discriminate. }
  subst tasks'. rewrite Htasks. unfold list_. rewrite !tasks_of_get_tasks.
  split_and!.
  - done.
  - done.
  - simpl. rewrite bool_decide_eq_true_2 by done.
    rewrite filter_app. f_equal. rewrite filter_cons_True; [done|]. by rewrite Hs.
  - intros s' Hs0 Hs'. simpl. rewrite bool_decide_eq_true_2 by done.
    rewrite filter_app, filter_cons_False, filter_nil, app_nil_r; [done|].
    rewrite Hs. intros [= Heq]. by apply Hs'.
Qed.

Lemma created_task_is_listed_last_witness :
  tasks_of (list_ (Some "done")
              (post_tasks (Body.mk (Some " Ship it now ") (Some "done") None)
                 {| Date_now := 41; new_Date := 42 |} tasks0).2).1
  = [Task.mk "tsk-41" "Ship it now" "done" None (Some 42%N) None].
Proof.
  destruct (created_task_is_listed_last (Body.mk (Some " Ship it now ") (Some "done") None)
              {| Date_now := 41; new_Date := 42 |} tasks0
              (Task.mk "tsk-41" "Ship it now" "done" None (Some 42%N) None) "done")
    as (_ & _ & Hown & _); [reflexivity|reflexivity|].
  exact Hown.
Defined.

(** ** Assign after assign *)

(** ** Assign after assign *)

Lemma findTask_after_assign taskId a now i task (tasks : list Task.t) :
  findTask taskId tasks = Some (i, task) →
  findTask taskId (alter (Task.set_assignee a now) i tasks)
  = Some (i, Task.set_assignee a now task).
Proof.
  intros (Hi & Hid & Hmin)%findTask_Some. unfold findTask.
  apply list_find_Some. split_and!.
  - by rewrite list_lookup_alter_eq, Hi.
  - done.
  - intros j t Hj Hlt. rewrite list_lookup_alter_ne in Hj by lia.
    by apply (Hmin j).
Qed.

(** X10: of two assigns to the same id the later one wins: with a valid
    second assignee, the answer to the second assign and the array after it
    are what they would be had the first assign never been made. *)
Theorem assign_overwrites_assign id a b clock1 clock2 tasks :
  valid_assignee b →
  assign id b clock2 (assign id a clock1 tasks).2 = assign id b clock2 tasks.
Proof.
  intros Hb%validateAssignee_valid. unfold assign at 2. unfold patch_assign at 1.
  destruct (validateAssignee (Body.assignee (Body.mk None None (Some a)))); simpl; [|done].
  destruct (findTask id tasks) as [[i task]|] eqn:Hfind; simpl; [|done].
  unfold assign.
  rewrite (patch_assign_found _ _ _ _ i (Task.set_assignee (Some a) (new_Date clock1) task));
    [|done|by apply findTask_after_assign].
  rewrite (patch_assign_found _ _ _ _ i task) by done.
  f_equal. rewrite list_alter_alter_eq. by apply list_alter_ext.
Qed.

Lemma assign_overwrites_assign_witness :
  (assign "tsk-2" "dev-7" {| Date_now := 9; new_Date := 9 |}
     (assign "tsk-2" "dev-3" {| Date_now := 8; new_Date := 8 |} tasks0).2).2
  = [ Task.mk "tsk-1" "Refactor auth module" "in-progress" (Some "dev-1") None None;
      Task.mk "tsk-2" "Write API documentation" "todo" (Some "dev-7") None (Some 9%N) ].
Proof.
  rewrite (assign_overwrites_assign "tsk-2" "dev-3" "dev-7").
  - reflexivity.
  - split; [discriminate | by exists "7"].
Defined.

(** * Properties of the command-line to-do list *)

(** ** Blank answers *)

Lemma ltrim_blank s : Validator.ltrim s = EmptyString ↔ Todo.blank s = true.
Proof.
  induction s as [|c s IH]; simpl; [done|].
  destruct (JS.is_whitespace c); simpl; [done|]. split; discriminate.
Qed.

Lemma rtrim_blank s : Validator.rtrim s = EmptyString ↔ Todo.blank s = true.
Proof.
  induction s as [|c s IH]; simpl; [done|].
  destruct (Validator.rtrim s) as [|b r].
  - destruct (JS.is_whitespace c); simpl; [tauto|]. split; discriminate.
  - destruct (JS.is_whitespace c); simpl; [|split; discriminate].
    split; [discriminate|]. intros Hb. apply IH in Hb. discriminate.
Qed.

Lemma trim_blank s : Todo.trim s = EmptyString ↔ Todo.blank s = true.
Proof.
  unfold Todo.trim, Validator.trim. rewrite rtrim_blank. split.
  - intros Hb. apply ltrim_blank.
    destruct (Validator.ltrim s) as [|c r] eqn:Hl; [done|].
    apply ltrim_head in Hl. simpl in Hb. by rewrite Hl in Hb.
  - intros Hb%ltrim_blank. by rewrite Hb.
Qed.

Lemma newTask_blank_run file answer rest out :
  Todo.blank answer = true →
  Todo.newTask {| Todo.file := file; Todo.stdin := answer :: rest; Todo.stdout := out |}
  = (Todo.Resolved (),
     {| Todo.file := file; Todo.stdin := rest;
        Todo.stdout := (out ++ [Todo.Question " What needs to be done? "])
                       ++ [Todo.Log "  Task name cannot be empty."] |}).
Proof.
  intros Hb%trim_blank.
  unfold Todo.newTask, Todo.askUser, Todo.question, Todo.bind; simpl.
  by rewrite bool_decide_eq_true_2.
Qed.

Lemma newTask_add_run items answer rest out :
  Todo.blank answer = false →
  Todo.newTask {| Todo.file := Some items; Todo.stdin := answer :: rest;
                  Todo.stdout := out |}
  = (Todo.Resolved (),
     {| Todo.file := Some (items ++ [ {| Todo.name := answer; Todo.done := false |} ]);
        Todo.stdin := rest;
        Todo.stdout := (out ++ [Todo.Question " What needs to be done? "])
                       ++ [Todo.Log " Added new task!"] |}).
Proof.
  intros Hb.
  unfold Todo.newTask, Todo.askUser, Todo.question, Todo.bind; simpl.
  rewrite bool_decide_eq_false_2; [done|]. rewrite trim_blank. by rewrite Hb.
Qed.

(** X11: [newTask] refuses a name made of whitespace only (the file is not
    even read) and otherwise appends the name exactly as it was typed,
    surrounding whitespace included, as a task that is not done; the tasks
    already in the file stay as they are.  When the file does not exist a
    name that is not blank makes it fail with ENOENT, and no file is
    written. *)
Theorem newTask_appends_untrimmed file answer rest out :
  let w := {| Todo.file := file; Todo.stdin := answer :: rest; Todo.stdout := out |} in
  let asked := out ++ [Todo.Question " What needs to be done? "] in
  (Todo.blank answer = true →
   Todo.newTask w
   = (Todo.Resolved (),
      {| Todo.file := file; Todo.stdin := rest;
         Todo.stdout := asked ++ [Todo.Log "  Task name cannot be empty."] |}))
  ∧ (Todo.blank answer = false → ∀ items, file = Some items →
     Todo.newTask w
     = (Todo.Resolved (),
        {| Todo.file := Some (items ++ [ {| Todo.name := answer; Todo.done := false |} ]);
           Todo.stdin := rest;
           Todo.stdout := asked ++ [Todo.Log " Added new task!"] |}))
  ∧ (Todo.blank answer = false → file = None →
     Todo.newTask w
     = (Todo.Rejected "ENOENT",
        {| Todo.file := None; Todo.stdin := rest; Todo.stdout := asked |})).
Proof.
  intros w asked. subst w asked. split_and!.
  - apply newTask_blank_run.
  - intros Hb items ->. by apply newTask_add_run.
  - intros Hb ->.
    unfold Todo.newTask, Todo.askUser, Todo.question, Todo.bind; simpl.
    rewrite bool_decide_eq_false_2; [done|]. rewrite trim_blank. by rewrite Hb.
Qed.

Lemma newTask_appends_untrimmed_witness :
  Todo.file (Todo.newTask {| Todo.file := Some []; Todo.stdin := [" buy milk "];
                             Todo.stdout := [] |}).2
  = Some [ {| Todo.name := " buy milk "; Todo.done := false |} ].
Proof.
  destruct (newTask_appends_untrimmed (Some []) " buy milk " [] []) as (_ & Hadd & _).
  rewrite (Hadd eq_refl [] eq_refl). reflexivity.
Defined.

(** ** Reading a task number *)

Example parseInt_examples :
  Todo.parseInt "2" = Some 2%Z
  ∧ Todo.parseInt "  12 apples" = Some 12%Z
  ∧ Todo.parseInt "-3" = Some (-3)%Z
  ∧ Todo.parseInt "0x1f" = Some 31%Z
  ∧ Todo.parseInt "two" = None
  ∧ Todo.parseInt EmptyString = None.
Proof. by split_and!. Qed.

Lemma pretty_N_char_digit d :
  (d < 10)%N →
  Todo.digit_value (pretty_N_char d) = Some d
  ∧ JS.is_whitespace (pretty_N_char d) = false
  ∧ pretty_N_char d ≠ "-"%char ∧ pretty_N_char d ≠ "+"%char
  ∧ (d ≠ 0%N → pretty_N_char d ≠ "0"%char).
Proof.
  intros Hd.
  assert (Hcases : d ∈ [0; 1; 2; 3; 4; 5; 6; 7; 8; 9]%N).
  { rewrite !elem_of_cons. lia. }
  rewrite !elem_of_cons, elem_of_nil in Hcases.
  destruct Hcases as [->|[->|[->|[->|[->|[->|[->|[->|[->|[->|[]]]]]]]]]]];
    (split_and!; [reflexivity|reflexivity|discriminate|discriminate|]);
    first [done | intros _; discriminate].
Qed.

Lemma div_mod_10 (x : N) :
  (0 < x)%N →
  ∃ q r, (x `div` 10 = q ∧ x `mod` 10 = r ∧ x = 10 * q + r ∧ r < 10 ∧ q < x)%N.
Proof.
  intros Hx. exists (x `div` 10)%N, (x `mod` 10)%N. split_and!; [done|done|..].
  - by apply N.div_mod.
  - by apply N.mod_lt.
  - by apply N.div_lt.
Qed.

Lemma digits_pretty_N_go x s :
  (0 < x)%N →
  Todo.digits 10 (pretty_N_go x s) None = Todo.digits 10 s (Some x).
Proof.
  revert s. induction (N.lt_wf_0 x) as [x _ IH]; intros s Hx.
  rewrite pretty_N_go_step by done.
  destruct (div_mod_10 x Hx) as (q & r & -> & -> & Hqr & Hr & Hq).
  destruct (pretty_N_char_digit _ Hr) as (Hdv & _).
  destruct (decide (q = 0%N)) as [->|Hpos].
  - rewrite pretty_N_go_0. simpl. rewrite Hdv.
    rewrite bool_decide_eq_true_2 by done. simpl.
    f_equal. f_equal. lia.
  - rewrite IH; [|done|lia].
    simpl. rewrite Hdv. rewrite bool_decide_eq_true_2 by done. simpl.
    f_equal. f_equal. lia.
Qed.

Lemma pretty_N_go_head x s :
  (0 < x)%N →
  ∃ d r, (0 < d < 10)%N ∧ pretty_N_go x s = String (pretty_N_char d) r.
Proof.
  revert s. induction (N.lt_wf_0 x) as [x _ IH]; intros s Hx.
  rewrite pretty_N_go_step by done.
  destruct (div_mod_10 x Hx) as (q & r & -> & -> & Hqr & Hr & Hq).
  destruct (decide (q = 0%N)) as [->|Hpos].
  - rewrite pretty_N_go_0. exists r, s. split; [lia|done].
  - apply IH; [done|lia].
Qed.

Lemma pretty_N_go_app x s r :
  pretty_N_go x s +:+ r = pretty_N_go x (s +:+ r).
Proof.
  revert s. induction (N.lt_wf_0 x) as [x _ IH]; intros s.
  destruct (decide (x = 0%N)) as [->|Hx].
  - by rewrite !pretty_N_go_0.
  - assert (Hpos : (0 < x)%N) by lia.
    rewrite (pretty_N_go_step x s), (pretty_N_go_step x (s +:+ r)) by done.
    destruct (div_mod_10 x Hpos) as (q & d & -> & -> & _ & _ & Hq).
    by rewrite IH.
Qed.

Lemma ltrim_app_blank lead s :
  Todo.blank lead = true → Validator.ltrim (lead +:+ s) = Validator.ltrim s.
Proof.
  induction lead as [|c lead IH]; [done|]. simpl.
  intros [Hc Hl]%andb_true_iff. rewrite ?append_cons. simpl. rewrite Hc. by apply IH.
Qed.

Lemma digits_stop rest acc :
  (∀ c r, rest = String c r → ¬ Todo.decimal_digit c) →
  Todo.digits 10 rest acc = acc.
Proof.
  destruct rest as [|c r]; [done|]. intros Hno. specialize (Hno c r eq_refl).
  unfold Todo.decimal_digit in Hno. simpl. unfold Todo.digit_value.
  repeat case_bool_decide; try done; lia.
Qed.

Lemma parseInt_numbered n lead rest :
  Todo.numbered n lead rest →
  Todo.parseInt (lead +:+ pretty n +:+ rest) = Some (Z.of_N n).
Proof.
  intros [Hlead Hdig Hhex]. unfold Todo.parseInt.
  rewrite ltrim_app_blank by done.
  unfold pretty, pretty_N. case_decide as Hn.
  - subst n. rewrite append_cons, append_nil_l.
    destruct rest as [|c r]; [reflexivity|].
    destruct (Hhex eq_refl c r eq_refl) as [Hx HX].
    specialize (Hdig c r eq_refl). unfold Todo.decimal_digit in Hdig.
    destruct c as [[] [] [] [] [] [] [] []];
      first [ reflexivity | by destruct Hx | by destruct HX
            | exfalso; apply Hdig; simpl; lia ].
  - rewrite pretty_N_go_app, append_nil_l.
    assert (Hpos : (0 < n)%N) by lia.
    destruct (pretty_N_go_head n rest Hpos) as (d & r & Hd & Hgo).
    destruct (pretty_N_char_digit d) as (_ & Hws & Hminus & Hplus & Hzero); [lia|].
    specialize (Hzero ltac:(lia)).
    pose proof (digits_pretty_N_go n rest Hpos) as Hval.
    rewrite (digits_stop rest _ Hdig) in Hval.
    rewrite Hgo in *. simpl. rewrite Hws.
    destruct (pretty_N_char d) as [[] [] [] [] [] [] [] []]; try done;
      rewrite Hval; simpl; f_equal; lia.
Qed.

(** ** One question, one change *)

Lemma showTasks_run items w :
  Todo.showTasks items w
  = (Todo.Resolved (),
     {| Todo.file := Todo.file w; Todo.stdin := Todo.stdin w;
        Todo.stdout := Todo.stdout w ++ Todo.listing items |}).
Proof.
  unfold Todo.showTasks, Todo.listing, Todo.bind, Todo.console_log, Todo.print.
  destruct items as [|item items]; simpl.
  - by rewrite <-app_assoc.
  - by rewrite <-!app_assoc.
Qed.

Lemma selected_Some answer items i :
  Todo.selected answer items = Some i ↔
  ∃ n, Todo.parseInt answer = Some n ∧ (1 ≤ n ≤ Z.of_nat (length items))%Z
       ∧ i = Z.to_nat (n - 1).
Proof.
  unfold Todo.selected, Todo.valid_index.
  destruct (Todo.parseInt answer) as [n|]; simpl.
  - repeat case_bool_decide; simpl.
    + split; [intros [= <-]; exists n; split_and!; [done|lia|lia|done]|].
      by intros (m & [= <-] & _ & ->).
    + split; [discriminate|]. intros (m & [= <-] & ? & _). lia.
    + split; [discriminate|]. intros (m & [= <-] & ? & _). lia.
    + split; [discriminate|]. intros (m & [= <-] & ? & _). lia.
  - split; [discriminate|]. by intros (m & ? & _).
Qed.

Lemma selected_lt answer items i :
  Todo.selected answer items = Some i → i < length items.
Proof. intros (n & _ & Hn & ->)%selected_Some. lia. Qed.

Lemma selected_numbered items i lead rest :
  i < length items → Todo.numbered (N.of_nat (S i)) lead rest →
  Todo.selected (lead +:+ pretty (N.of_nat (S i)) +:+ rest) items = Some i.
Proof.
  intros Hi Hnum. apply selected_Some. exists (Z.of_N (N.of_nat (S i))).
  split_and!; [by apply parseInt_numbered|lia|lia|lia].
Qed.

Lemma finishTask_run items answer rest out :
  items ≠ [] →
  Todo.finishTask {| Todo.file := Some items; Todo.stdin := answer :: rest; Todo.stdout := out |}
  = (Todo.Resolved (),
     {| Todo.file := Some (match Todo.selected answer items with
                           | Some i => alter Todo.set_done i items
                           | None => items
                           end);
        Todo.stdin := rest;
        Todo.stdout :=
          out ++ Todo.listing items
          ++ [ Todo.Question " Which task did you finish? ";
               Todo.Log (match Todo.selected answer items with
                         | Some _ => " Great job completing that task!"
                         | None => "that task number doesn't exist"
                         end) ] |}).
Proof.
  intros Hne. remember (Todo.listing items) as shown.
  unfold Todo.finishTask, Todo.getTasks, Todo.fs_readFile.
  unfold Todo.bind at 1. simpl.
  rewrite bool_decide_eq_false_2 by (by destruct items).
  unfold Todo.bind at 1. rewrite showTasks_run, <-Heqshown. simpl.
  unfold Todo.bind, Todo.askUser, Todo.question, Todo.selected; simpl.
  destruct (Todo.valid_index _ _); unfold Todo.console_log; simpl;
    by rewrite <-!app_assoc.
Qed.

Lemma removeTask_run items answer rest out :
  items ≠ [] →
  Todo.removeTask {| Todo.file := Some items; Todo.stdin := answer :: rest; Todo.stdout := out |}
  = (Todo.Resolved (),
     {| Todo.file := Some (match Todo.selected answer items with
                           | Some i => delete i items
                           | None => items
                           end);
        Todo.stdin := rest;
        Todo.stdout :=
          out ++ Todo.listing items
          ++ [ Todo.Question "  Which task to remove? ";
               match Todo.selected answer items with
               | Some i => Todo.Removed (default EmptyString (Todo.name <$> items !! i))
               | None => Todo.Log " Oops, that task number doesn't exist"
               end ] |}).
Proof.
  intros Hne. remember (Todo.listing items) as shown.
  unfold Todo.removeTask, Todo.getTasks, Todo.fs_readFile.
  unfold Todo.bind at 1. simpl.
  rewrite bool_decide_eq_false_2 by (by destruct items).
  unfold Todo.bind at 1. rewrite showTasks_run, <-Heqshown. simpl.
  destruct (Todo.selected answer items) as [i|] eqn:Hsel.
  - pose proof (selected_lt _ _ _ Hsel) as Hi.
    apply lookup_lt_is_Some_2 in Hi as [item Hitem].
    unfold Todo.selected in Hsel.
    unfold Todo.bind, Todo.askUser, Todo.question; simpl.
    destruct (Todo.valid_index _ _); [|discriminate]. injection Hsel as Hsel.
    rewrite Hsel, Hitem. unfold Todo.print. simpl. by rewrite <-!app_assoc.
  - unfold Todo.selected in Hsel.
    unfold Todo.bind, Todo.askUser, Todo.question; simpl.
    destruct (Todo.valid_index _ _); [discriminate|].
    unfold Todo.console_log. simpl. by rewrite <-!app_assoc.
Qed.

Lemma last_app_two {A} (l m : list A) a b : last (l ++ m ++ [a; b]) = Some b.
Proof.
  change [a; b] with ([a] ++ [b]). by rewrite !app_assoc, last_snoc.
Qed.

(** X12: when the answer to [finishTask] parses to a number [n] between 1 and
    the number of tasks, the task at position [n] (counted from 1) is marked
    done and written back; nothing else changes: the file has the same number
    of tasks with the same names in the same order, every other task is as it
    was, and no task that was done stops being done. *)
Theorem finishTask_marks_the_numbered_task items answer rest out n :
  Todo.parseInt answer = Some n →
  (1 ≤ n ≤ Z.of_nat (length items))%Z →
  let i := Z.to_nat (n - 1) in
  let after :=
    Todo.finishTask {| Todo.file := Some items; Todo.stdin := answer :: rest;
                       Todo.stdout := out |} in
  after.1 = Todo.Resolved ()
  ∧ Todo.stdin after.2 = rest
  ∧ ∃ items',
      Todo.file after.2 = Some items'
      ∧ length items' = length items
      ∧ Todo.name <$> items' = Todo.name <$> items
      ∧ Todo.done <$> items' !! i = Some true
      ∧ (∀ j, j ≠ i → items' !! j = items !! j)
      ∧ (∀ j item, items !! j = Some item → Todo.done item = true →
           items' !! j = Some item).
Proof.
  intros Hparse Hn i after.
  assert (Hne : items ≠ []) by (intros ->; simpl in Hn; lia).
  assert (Hsel : Todo.selected answer items = Some i).
  { apply selected_Some. by exists n. }
  subst after. rewrite finishTask_run by done. rewrite Hsel. simpl.
  split_and!; [done|done|].
  assert (Hi : i < length items) by (subst i; lia).
  apply lookup_lt_is_Some_2 in Hi as [item Hitem].
  exists (alter Todo.set_done i items). split_and!.
  - done.
  - apply length_alter.
  - rewrite (list_fmap_alter _ _ (λ x, x)) by (by apply Forall_true).
    by apply list_alter_id.
  - by rewrite list_lookup_alter_eq, Hitem.
  - intros j Hj. by apply list_lookup_alter_ne.
  - intros j [name done] Hj Hdone. simpl in Hdone. subst done.
    destruct (decide (i = j)) as [->|Hne'].
    + by rewrite list_lookup_alter_eq, Hj.
    + by rewrite list_lookup_alter_ne.
Qed.

Lemma finishTask_marks_the_numbered_task_witness :
  ∃ items',
    Todo.file
      (Todo.finishTask
         {| Todo.file := Some [ {| Todo.name := "a"; Todo.done := false |};
                                {| Todo.name := "b"; Todo.done := false |} ];
            Todo.stdin := [" 2nd"]; Todo.stdout := [] |}).2
    = Some items'
    ∧ Todo.done <$> items' !! 1 = Some true
    ∧ items' !! 0 = Some {| Todo.name := "a"; Todo.done := false |}.
Proof.
  destruct (finishTask_marks_the_numbered_task
              [ {| Todo.name := "a"; Todo.done := false |};
                {| Todo.name := "b"; Todo.done := false |} ] " 2nd" [] [] 2)
    as (_ & _ & items' & Hfile & _ & _ & Hdone & Hother & _); [reflexivity|simpl; lia|].
  exists items'. split_and!; [exact Hfile|exact Hdone|].
  rewrite (Hother 0); [reflexivity|]. simpl. lia.
Defined.

(** X13: [finishTask] and [removeTask] change the file only when the answer
    selects a task.  An answer that [parseInt] does not read as a number, or
    reads as a number below 1 or above the number of tasks, leaves the file as
    it was, and the program says that the task number does not exist; when the
    list is empty the question is not even asked. *)
Theorem unselecting_answer_changes_nothing items answer rest out :
  (∀ n, Todo.parseInt answer = Some n → (n < 1 ∨ Z.of_nat (length items) < n)%Z) →
  let w := {| Todo.file := Some items; Todo.stdin := answer :: rest; Todo.stdout := out |} in
  (Todo.finishTask w).1 = Todo.Resolved ()
  ∧ (Todo.removeTask w).1 = Todo.Resolved ()
  ∧ Todo.file (Todo.finishTask w).2 = Some items
  ∧ Todo.file (Todo.removeTask w).2 = Some items
  ∧ (items = [] →
     (Todo.finishTask w).2
     = {| Todo.file := Some []; Todo.stdin := answer :: rest;
          Todo.stdout := out ++ [Todo.Log " No tasks to mark as done!"] |}
     ∧ (Todo.removeTask w).2
       = {| Todo.file := Some []; Todo.stdin := answer :: rest;
            Todo.stdout := out ++ [Todo.Log " No tasks to remove!"] |})
  ∧ (items ≠ [] →
     Todo.stdin (Todo.finishTask w).2 = rest
     ∧ Todo.stdin (Todo.removeTask w).2 = rest
     ∧ last (Todo.stdout (Todo.finishTask w).2)
       = Some (Todo.Log "that task number doesn't exist")
     ∧ last (Todo.stdout (Todo.removeTask w).2)
       = Some (Todo.Log " Oops, that task number doesn't exist")).
Proof.
  intros Hout w. subst w.
  assert (Hsel : Todo.selected answer items = None).
  { destruct (Todo.selected answer items) as [i|] eqn:Hsel; [|done].
    apply selected_Some in Hsel as (n & Hn & Hrange & _).
    specialize (Hout n Hn). lia. }
  destruct items as [|item items].
  - by split_and!.
  - rewrite finishTask_run, removeTask_run by done. rewrite Hsel.
    cbn [fst snd Todo.file Todo.stdin Todo.stdout].
    split_and!; try done. intros _. split_and!; try done; apply last_app_two.
Qed.

Lemma unselecting_answer_changes_nothing_witness :
  Todo.file
    (Todo.removeTask
       {| Todo.file := Some [ {| Todo.name := "a"; Todo.done := false |} ];
          Todo.stdin := ["two"]; Todo.stdout := [] |}).2
  = Some [ {| Todo.name := "a"; Todo.done := false |} ].
Proof.
  apply (unselecting_answer_changes_nothing
           [ {| Todo.name := "a"; Todo.done := false |} ] "two" [] []).
  intros n Hn. discriminate Hn.
Defined.

(** X14: when the answer to [removeTask] parses to a number [n] between 1 and
    the number of tasks, exactly the task at position [n] is taken out of the
    file and named in the message: the tasks before it keep their positions,
    the tasks after it move up by one, and the file has one task less. *)
Theorem removeTask_removes_the_numbered_task items answer rest out n :
  Todo.parseInt answer = Some n →
  (1 ≤ n ≤ Z.of_nat (length items))%Z →
  let i := Z.to_nat (n - 1) in
  let after :=
    Todo.removeTask {| Todo.file := Some items; Todo.stdin := answer :: rest;
                       Todo.stdout := out |} in
  after.1 = Todo.Resolved ()
  ∧ Todo.stdin after.2 = rest
  ∧ ∃ items' removed,
      Todo.file after.2 = Some items'
      ∧ items !! i = Some removed
      ∧ last (Todo.stdout after.2) = Some (Todo.Removed (Todo.name removed))
      ∧ S (length items') = length items
      ∧ (∀ j, j < i → items' !! j = items !! j)
      ∧ (∀ j, i ≤ j → items' !! j = items !! S j).
Proof.
  intros Hparse Hn i after.
  assert (Hne : items ≠ []) by (intros ->; simpl in Hn; lia).
  assert (Hsel : Todo.selected answer items = Some i).
  { apply selected_Some. by exists n. }
  subst after. rewrite removeTask_run by done. rewrite Hsel.
  cbn [fst snd Todo.file Todo.stdin Todo.stdout].
  split_and!; [done|done|].
  assert (Hi : i < length items) by (subst i; lia).
  destruct (lookup_lt_is_Some_2 _ _ Hi) as [item Hitem].
  exists (delete i items), item. split_and!.
  - done.
  - done.
  - by rewrite last_app_two, Hitem.
  - rewrite length_delete by eauto. lia.
  - intros j Hj. by apply list_lookup_delete_lt.
  - intros j Hj. by apply list_lookup_delete_ge.
Qed.

Lemma removeTask_removes_the_numbered_task_witness :
  ∃ items',
    Todo.file
      (Todo.removeTask
         {| Todo.file := Some [ {| Todo.name := "a"; Todo.done := false |};
                                {| Todo.name := "b"; Todo.done := true |} ];
            Todo.stdin := ["1"]; Todo.stdout := [] |}).2
    = Some items'
    ∧ items' !! 0 = Some {| Todo.name := "b"; Todo.done := true |}
    ∧ length items' = 1.
Proof.
  destruct (removeTask_removes_the_numbered_task
              [ {| Todo.name := "a"; Todo.done := false |};
                {| Todo.name := "b"; Todo.done := true |} ] "1" [] [] 1)
    as (_ & _ & items' & removed & Hfile & _ & _ & Hlen & _ & Hup);
    [reflexivity|simpl; lia|].
  exists items'. split_and!; [exact Hfile| |simpl in Hlen; lia].
  rewrite (Hup 0); [reflexivity|]. simpl. lia.
Defined.

(** ** The number on the screen *)

Lemma listing_lookup items i item :
  items !! i = Some item →
  Todo.listing items !! S i
  = Some (Todo.TaskLine (S i) (Todo.done item) (Todo.name item)).
Proof.
  intros Hi. unfold Todo.listing.
  set (line := λ position item,
         Todo.TaskLine (position + 1) (Todo.done item) (Todo.name item)).
  destruct items as [|first others]; [done|].
  change ((imap line (first :: others) ++ [Todo.Log EmptyString]) !! i
          = Some (Todo.TaskLine (S i) (Todo.done item) (Todo.name item))).
  rewrite lookup_app_l.
  - rewrite list_lookup_imap, Hi. simpl. unfold line. by rewrite Nat.add_1_r.
  - rewrite length_imap. by eapply lookup_lt_Some.
Qed.

Lemma lookup_after {A} (out shown more : list A) k x :
  shown !! k = Some x → (out ++ shown ++ more) !! (length out + k) = Some x.
Proof.
  intros Hk. rewrite lookup_app_r by lia.
  replace (length out + k - length out) with k by lia.
  by apply lookup_app_l_Some.
Qed.

(** X15: the number [showTasks] prints in front of a task is the number to
    type.  For the task at position [i] of the file, the line that
    [showTasks] writes to the terminal for it, alone or when [finishTask] and
    [removeTask] show the list before their question, carries the number
    [i + 1] with the task's name and state; and an answer made of optional
    whitespace, the decimal numeral of [i + 1] and any text that does not go
    on with a digit makes [finishTask] mark that very task and [removeTask]
    remove that very task. *)
Theorem shown_number_selects_its_task items i item lead tail rest out :
  items !! i = Some item →
  Todo.numbered (N.of_nat (S i)) lead tail →
  let answer := lead +:+ pretty (S i) +:+ tail in
  let w := {| Todo.file := Some items; Todo.stdin := answer :: rest; Todo.stdout := out |} in
  let line := Todo.TaskLine (S i) (Todo.done item) (Todo.name item) in
  Todo.stdout (Todo.showTasks items w).2 !! (length out + S i) = Some line
  ∧ Todo.stdout (Todo.finishTask w).2 !! (length out + S i) = Some line
  ∧ Todo.stdout (Todo.removeTask w).2 !! (length out + S i) = Some line
  ∧ Todo.file (Todo.finishTask w).2 = Some (<[i := Todo.set_done item]> items)
  ∧ Todo.file (Todo.removeTask w).2 = Some (delete i items).
Proof.
  intros Hi Hnum answer w line.
  assert (Hne : items ≠ []) by (by intros ->).
  assert (Hsel : Todo.selected answer items = Some i).
  { apply selected_numbered; [by eapply lookup_lt_Some|done]. }
  pose proof (listing_lookup items i item Hi) as Hline.
  subst w. rewrite showTasks_run, finishTask_run, removeTask_run by done. rewrite Hsel.
  cbn [fst snd Todo.file Todo.stdout].
  split_and!.
  - rewrite <-(app_nil_r (Todo.listing items)). by apply lookup_after.
  - by apply lookup_after.
  - by apply lookup_after.
  - f_equal. apply list_eq. intros j. destruct (decide (i = j)) as [<-|Hne'].
    + rewrite list_lookup_alter_eq, Hi, list_lookup_insert_eq; [done|by eapply lookup_lt_Some].
    + by rewrite list_lookup_alter_ne, list_lookup_insert_ne.
  - done.
Qed.

Lemma shown_number_selects_its_task_witness :
  Todo.stdout
    (Todo.removeTask
       {| Todo.file := Some [ {| Todo.name := "a"; Todo.done := false |};
                              {| Todo.name := "b"; Todo.done := true |} ];
          Todo.stdin := ["  2."]; Todo.stdout := [] |}).2 !! 2
  = Some (Todo.TaskLine 2 true "b")
  ∧ Todo.file
      (Todo.removeTask
         {| Todo.file := Some [ {| Todo.name := "a"; Todo.done := false |};
                                {| Todo.name := "b"; Todo.done := true |} ];
            Todo.stdin := ["  2."]; Todo.stdout := [] |}).2
    = Some [ {| Todo.name := "a"; Todo.done := false |} ].
Proof.
  destruct (shown_number_selects_its_task
              [ {| Todo.name := "a"; Todo.done := false |};
                {| Todo.name := "b"; Todo.done := true |} ] 1
              {| Todo.name := "b"; Todo.done := true |} "  " "." [] [])
    as (_ & _ & Hline & _ & Hfile).
  - reflexivity.
  - split.
    + reflexivity.
    + intros c r [= <- _]. unfold Todo.decimal_digit. simpl. lia.
    + discriminate.
  - split; [exact Hline | exact Hfile].
Defined.

Lemma delete_last {A} (l : list A) x : delete (length l) (l ++ [x]) = l.
Proof. induction l as [|y l IH]; [done|]. simpl. by rewrite IH. Qed.

(** X16: adding a task and then removing the task with the number the new
    task got (the number of tasks after the add) puts the file back exactly
    as it was before the two operations. *)
Theorem add_then_remove_restores_the_file items name rest out :
  Todo.blank name = false →
  let w := {| Todo.file := Some items;
              Todo.stdin := name :: pretty (S (length items)) :: rest;
              Todo.stdout := out |} in
  let after := Todo.bind Todo.newTask (λ _, Todo.removeTask) w in
  after.1 = Todo.Resolved ()
  ∧ Todo.file after.2 = Some items
  ∧ Todo.stdin after.2 = rest.
Proof.
  intros Hname w after.
  assert (Hr : ∀ s, s +:+ EmptyString = s).
  { intros s. induction s as [|c s IH]; [done|]. by rewrite append_cons, IH. }
  assert (Hsel : Todo.selected (pretty (S (length items)))
                   (items ++ [ {| Todo.name := name; Todo.done := false |} ])
                 = Some (length items)).
  { pose proof (selected_numbered
                  (items ++ [ {| Todo.name := name; Todo.done := false |} ])
                  (length items) EmptyString EmptyString) as Hsel.
    rewrite append_nil_l, Hr in Hsel. apply Hsel.
    - rewrite length_app. simpl. lia.
    - split; [done|discriminate|discriminate]. }
  assert (Hrun : ∃ out',
            after = (Todo.Resolved (),
                     {| Todo.file := Some items; Todo.stdin := rest;
                        Todo.stdout := out' |})).
  { subst after w. unfold Todo.bind.
    rewrite (newTask_add_run items name _ out Hname).
    rewrite removeTask_run by (by destruct items).
    rewrite Hsel, delete_last. by eexists. }
  destruct Hrun as (out' & ->). done.
Qed.

Lemma add_then_remove_restores_the_file_witness :
  Todo.file
    (Todo.bind Todo.newTask (λ _, Todo.removeTask)
       {| Todo.file := Some [ {| Todo.name := "a"; Todo.done := true |} ];
          Todo.stdin := ["b"; "2"]; Todo.stdout := [] |}).2
  = Some [ {| Todo.name := "a"; Todo.done := true |} ].
Proof.
  apply (add_then_remove_restores_the_file
           [ {| Todo.name := "a"; Todo.done := true |} ] "b" [] []).
  reflexivity.
Defined.

(** ** A whole session *)










